(** * Transcription: batch (MP4) and streaming (Teams) speech-to-text

    A shallow embedding of the three programs of the repository

      - [mp4_transcription.py]   (class [MP4TranscriptionApp]),
      - [teams_transcription.py] (class [TeamsTranscriptionApp]),
      - [batch_mp4_processor.py] (class [BatchMP4Processor]),

    together with the properties of the pause-based speaker heuristic,
    of the report writer, of the streaming worker loop and of the batch
    driver.

    Conventions.
      - A Python [float] is an IEEE-754 binary64 number: Rocq's primitive
        [float], with its subtraction and comparison.
      - A Python [int] is a [Z].
      - A Python [str] is a [string] holding its UTF-8 encoding, which is
        also what a file opened with [encoding='utf-8'] receives.
      - A [bytes] value is a [list byte].
      - Calls into external libraries (the Whisper model, the wall clock,
        MoviePy, the file system) are parameters of the model. *)

From Stdlib Require Import ZArith Floats Ascii String.
From Stdlib.Strings Require Import Byte.
From stdpp Require Import base option list sorting strings gmap pretty.

Local Open Scope string_scope.
Local Open Scope list_scope.
Local Open Scope Z_scope.

(** ** Whisper segments and the speaker heuristic *)

Module Mp4.

(** A Whisper segment is a dict.  The keys the program reads are
    ['start'], ['end'], ['text'] and the key ['speaker'], which
    [detect_speakers] adds to its copies and which [save_transcript]
    reads back with [segment.get('speaker', ...)]. *)
Record segment : Type := Segment {
  start   : float;
  end_    : float;
  text    : string;
  speaker : option Z
}.

(** [d = segment.copy(); d['speaker'] = v] *)
Definition set_speaker (v : Z) (d : segment) : segment :=
  {| start := start d; end_ := end_ d; text := text d; speaker := Some v |}.

(** [a >= b] on Python floats. *)
Definition float_ge (a b : float) : bool := PrimFloat.leb b a.

(** The test of lines 146-149:
    [pause_duration = current_start - prev_end],
    [pause_duration >= min_pause]. *)
Definition long_pause (min_pause : float) (prev seg : segment) : bool :=
  let prev_end := end_ prev in
  let current_start := start seg in
  let pause_duration := PrimFloat.sub current_start prev_end in
  float_ge pause_duration min_pause.

(** One turn of [for i, segment in enumerate(segments)]; the loop state
    is the pair [(current_speaker, speaker_segments)]. *)
Definition detect_step (segments : list segment) (min_pause : float)
    (st : Z * list segment) (i : nat) (seg : segment)
    : Z * list segment :=
  let '(current_speaker, speaker_segments) := st in
  let current_speaker :=
    if (0 <? i)%nat then
      match segments !! (i - 1)%nat with
      | Some prev =>
          if long_pause min_pause prev seg
          then current_speaker + 1 else current_speaker
      | None => current_speaker
      end
    else current_speaker in
  let segment_with_speaker := set_speaker current_speaker seg in
  (current_speaker, speaker_segments ++ [segment_with_speaker]).

(** The [for] loop, started at index [i] on the remaining items. *)
Fixpoint detect_loop (segments : list segment) (min_pause : float)
    (st : Z * list segment) (i : nat) (rest : list segment)
    : Z * list segment :=
  match rest with
  | [] => st
  | seg :: rest' =>
      detect_loop segments min_pause
        (detect_step segments min_pause st i seg) (S i) rest'
  end.

(** [detect_speakers(self, segments, min_pause=2.0)] *)
Definition detect_speakers (segments : list segment) (min_pause : float)
    : list segment :=
  match segments with
  | [] => []
  | _ => snd (detect_loop segments min_pause (1, []) 0 segments)
  end.

Definition default_min_pause : float := 2.0%float.

(** The same labelling by structural recursion: [prev] is
    [segments[i-1]], when there is one. *)
Fixpoint assign_speakers (min_pause : float) (prev : option segment)
    (current_speaker : Z) (rest : list segment) : list segment :=
  match rest with
  | [] => []
  | seg :: rest' =>
      let current_speaker :=
        match prev with
        | Some p =>
            if long_pause min_pause p seg
            then current_speaker + 1 else current_speaker
        | None => current_speaker
        end in
      set_speaker current_speaker seg
        :: assign_speakers min_pause (Some seg) current_speaker rest'
  end.

(** The speaker ids of a labelled list; an item without the key has
    none. *)
Definition speaker_ids (l : list segment) : list (option Z) :=
  map speaker l.

(** ** Python strings *)

(** ["\n"] *)
Definition nl : string := String (ascii_of_nat 10) EmptyString.

(** [s * n] *)
Fixpoint str_mul (s : string) (n : nat) : string :=
  match n with
  | O => ""
  | S n' => s +:+ str_mul s n'
  end.

Definition byte_in (lo hi : nat) (c : ascii) : bool :=
  let n := nat_of_ascii c in ((lo <=? n) && (n <=? hi))%nat.

(** The code points for which [str.isspace()] holds, in UTF-8:
    U+0009..U+000D, U+001C..U+0020 (one byte); U+0085, U+00A0 (two
    bytes); U+1680, U+2000..U+200A, U+2028, U+2029, U+202F, U+205F,
    U+3000 (three bytes). *)
Definition is_space1 (a : ascii) : bool :=
  byte_in 9 13 a || byte_in 28 32 a.

Definition is_space2 (a b : ascii) : bool :=
  byte_in 194 194 a && (byte_in 133 133 b || byte_in 160 160 b).

Definition is_space3 (a b c : ascii) : bool :=
  (byte_in 225 225 a && byte_in 154 154 b && byte_in 128 128 c)
  || (byte_in 226 226 a && byte_in 128 128 b
      && (byte_in 128 138 c || byte_in 168 169 c || byte_in 175 175 c))
  || (byte_in 226 226 a && byte_in 129 129 b && byte_in 159 159 c)
  || (byte_in 227 227 a && byte_in 128 128 b && byte_in 128 128 c).

(** [s.lstrip()] *)
Fixpoint lstrip (s : string) : string :=
  match s with
  | String a r1 =>
      if is_space1 a then lstrip r1 else
      match r1 with
      | String b r2 =>
          if is_space2 a b then lstrip r2 else
          match r2 with
          | String c r3 => if is_space3 a b c then lstrip r3 else s
          | EmptyString => s
          end
      | EmptyString => s
      end
  | EmptyString => s
  end.

(** [lstrip] on the reversed string: the bytes of a code point come
    last byte first. *)
Fixpoint lstrip_rev (s : string) : string :=
  match s with
  | String a r1 =>
      if is_space1 a then lstrip_rev r1 else
      match r1 with
      | String b r2 =>
          if is_space2 b a then lstrip_rev r2 else
          match r2 with
          | String c r3 => if is_space3 c b a then lstrip_rev r3 else s
          | EmptyString => s
          end
      | EmptyString => s
      end
  | EmptyString => s
  end.

(** [s.rstrip()] *)
Definition rstrip (s : string) : string :=
  String.rev (lstrip_rev (String.rev s)).

(** [s.strip()] *)
Definition strip (s : string) : string := rstrip (lstrip s).

(** [len(s)]: the number of code points, that is of bytes that are not
    continuation bytes [10xxxxxx]. *)
Fixpoint py_len (s : string) : nat :=
  match s with
  | EmptyString => O
  | String a r => ((if byte_in 128 191 a then 0 else 1) + py_len r)%nat
  end.

(** [f"{n:02d}"] *)
Definition fmt_02d (n : Z) : string :=
  let s := pretty n in
  if (String.length s <? 2)%nat then "0" +:+ s else s.

(** Whether [needle in haystack]. *)
Fixpoint contains (needle haystack : string) : bool :=
  String.prefix needle haystack
  || match haystack with
     | EmptyString => false
     | String _ r => contains needle r
     end.

(** ** Outcomes, and the commands a report emits *)

(** A call returns or raises; an exception is represented by its
    [str(e)]. *)
Inductive outcome (A : Type) : Type :=
  | Returned (a : A)
  | Raised (e : string).
Arguments Returned {A} a.
Arguments Raised {A} e.

(** What the body of [with open(output_file, 'w') as f] does to the
    outside: [f.write(s)] and [print(s)]. *)
Inductive action : Type :=
  | Write (s : string)
  | Print (s : string).

(** The body of the [with] block: the commands issued so far, and how
    the body ended. *)
Definition script (A : Type) : Type := (list action * outcome A)%type.

#[export] Instance script_ret : MRet script := λ A a, ([], Returned a).
#[export] Instance script_bind : MBind script := λ A B k m,
  match m with
  | (acts, Returned a) => (acts ++ (k a).1, (k a).2)
  | (acts, Raised e) => (acts, Raised e)
  end.

Definition f_write (s : string) : script unit := ([Write s], Returned tt).
Definition print (s : string) : script unit := ([Print s], Returned tt).
Definition lift {A} (r : outcome A) : script A := ([], r).

(** The strings written, in order. *)
Definition written (acts : list action) : list string :=
  omap (λ a, match a with Write s => Some s | Print _ => None end) acts.

Definition concat_str (l : list string) : string :=
  foldr String.app "" l.

(** A number handed to [format_timestamp]: [segment['end']] is a float,
    the literal [0] of line 222 is an int. *)
Inductive pynum : Type :=
  | PyInt (z : Z)
  | PyFloat (f : float).

(** The Whisper result dict: ['text'], ['segments'] and, read with
    [result.get('language', 'unknown')], ['language']. *)
Record whisper_result : Type := WhisperResult {
  result_text : string;
  result_segments : list segment;
  result_language : option string
}.

(** The world [save_transcript] runs in: the files by path, the console,
    the error log, and what the file system will refuse.
    [open_fault = Some e]: [open(output_file, 'w')] raises [e].
    [write_fault = Some (n, e)]: [n] more calls of [f.write] succeed and
    the next one raises [e]. *)
Record world : Type := World {
  disk : gmap string string;
  stdout : list string;
  error_log : list string;
  open_fault : option string;
  write_fault : option (nat * string)
}.

Definition set_disk (d : gmap string string) (w : world) : world :=
  {| disk := d; stdout := stdout w; error_log := error_log w;
     open_fault := open_fault w; write_fault := write_fault w |}.
Definition set_write_fault (f : option (nat * string)) (w : world) : world :=
  {| disk := disk w; stdout := stdout w; error_log := error_log w;
     open_fault := open_fault w; write_fault := f |}.
Definition add_stdout (s : string) (w : world) : world :=
  {| disk := disk w; stdout := stdout w ++ [s]; error_log := error_log w;
     open_fault := open_fault w; write_fault := write_fault w |}.
Definition add_error (s : string) (w : world) : world :=
  {| disk := disk w; stdout := stdout w; error_log := error_log w ++ [s];
     open_fault := open_fault w; write_fault := write_fault w |}.

(** The commands of the body applied to the file at [path], one after
    the other, until one raises.  Writes reach the file as they are
    issued. *)
Fixpoint perform (path : string) (acts : list action) (w : world)
    : outcome unit * world :=
  match acts with
  | [] => (Returned tt, w)
  | Print s :: acts' => perform path acts' (add_stdout s w)
  | Write s :: acts' =>
      let append w :=
        set_disk (<[path := default "" (disk w !! path) +:+ s]> (disk w)) w in
      match write_fault w with
      | Some (O, e) => (Raised e, w)
      | Some (S n, e) =>
          perform path acts' (set_write_fault (Some (n, e)) (append w))
      | None => perform path acts' (append w)
      end
  end.

(** [with open(path, 'w', encoding='utf-8') as f: body]: the file is
    created or truncated, the body runs, and the file is closed whether
    or not the body raised. *)
Definition with_open_w {A} (path : string) (body : script A) (w : world)
    : outcome A * world :=
  match open_fault w with
  | Some e => (Raised e, w)
  | None =>
      let w0 := set_disk (<[path := ""]> (disk w)) w in
      match perform path body.1 w0 with
      | (Raised e, w') => (Raised e, w')
      | (Returned _, w') => (body.2, w')
      end
  end.

(** ** The report *)

Section Report.

(** [self.model_size], [self.output_dir]. *)
Variable model_size : string.
Variable output_dir : string.
(** [Path(p).stem] and [os.path.join]. *)
Variable path_stem : string → string.
Variable os_path_join : string → string → string.
(** [datetime.now()] as formatted on line 173 and on line 183. *)
Variable now_stamp : string.
Variable now_text : string.
(** [int(timedelta(seconds=x).total_seconds())] for a float [x]; it
    raises on a NaN, an infinity or a value out of range. *)
Variable whole_seconds : float → outcome Z.

(** The same for an int: [timedelta] holds at most 999999999 days. *)
Definition whole_seconds_int (z : Z) : outcome Z :=
  if (-999999999 <=? z `div` 86400) && (z `div` 86400 <=? 999999999)
  then Returned z
  else Raised "days out of range".

(** [format_timestamp(self, seconds)] *)
Definition format_timestamp (seconds : pynum) : outcome string :=
  match (match seconds with
         | PyInt z => whole_seconds_int z
         | PyFloat x => whole_seconds x
         end) with
  | Raised e => Raised e
  | Returned total_seconds =>
      let hours := total_seconds `div` 3600 in
      let remainder := total_seconds `mod` 3600 in
      let minutes := remainder `div` 60 in
      let seconds := remainder `mod` 60 in
      Returned (fmt_02d hours +:+ ":" +:+ fmt_02d minutes +:+ ":"
                +:+ fmt_02d seconds)
  end.

(** [f"話者{segment.get('speaker', '?')}"] *)
Definition speaker_info (seg : segment) : string :=
  "話者" +:+ match speaker seg with Some v => pretty v | None => "?" end.

(** The line of lines 208-217, without its final newline. *)
Definition detail_line (include_timestamps include_speakers : bool)
    (start_time end_time : string) (seg : segment) : string :=
  let text := strip (text seg) in
  if include_timestamps && include_speakers then
    "[" +:+ start_time +:+ " - " +:+ end_time +:+ "] "
      +:+ speaker_info seg +:+ ": " +:+ text
  else if include_timestamps then
    "[" +:+ start_time +:+ " - " +:+ end_time +:+ "] " +:+ text
  else
    text.

(** The body of [for segment in segments] (lines 203-217). *)
Definition write_segment (include_timestamps include_speakers : bool)
    (seg : segment) : script unit :=
  start_time ← lift (format_timestamp (PyFloat (start seg)));
  end_time ← lift (format_timestamp (PyFloat (end_ seg)));
  let line :=
    detail_line include_timestamps include_speakers start_time end_time seg in
  f_write (line +:+ nl);;
  print line.

Fixpoint write_segments (include_timestamps include_speakers : bool)
    (segments : list segment) : script unit :=
  match segments with
  | [] => mret tt
  | seg :: rest =>
      write_segment include_timestamps include_speakers seg;;
      write_segments include_timestamps include_speakers rest
  end.

(** [max(l)] for a non-empty list. *)
Definition max_list (x : Z) (l : list Z) : Z := foldl Z.max x l.

(** Lines 179-186. *)
Definition write_header (result : whisper_result) (mp4_path : string)
    : script unit :=
  f_write (str_mul "=" 60 +:+ nl);;
  f_write ("MP4動画ファイル音声文字起こし結果" +:+ nl);;
  f_write (str_mul "=" 60 +:+ nl);;
  f_write ("元ファイル: " +:+ mp4_path +:+ nl);;
  f_write ("処理日時: " +:+ now_text +:+ nl);;
  f_write ("Whisperモデル: " +:+ model_size +:+ nl);;
  f_write ("検出言語: " +:+ default "unknown" (result_language result) +:+ nl);;
  f_write (str_mul "=" 60 +:+ nl +:+ nl).

(** Lines 194-197. *)
Definition write_full_text (full_text : string) : script unit :=
  f_write ("【全文】" +:+ nl);;
  f_write (str_mul "-" 40 +:+ nl);;
  f_write (full_text +:+ nl +:+ nl).

(** Lines 220-227. *)
Definition write_statistics (include_speakers : bool)
    (segments : list segment) (full_text : string) : script unit :=
  f_write (nl +:+ str_mul "=" 60 +:+ nl);;
  f_write ("【統計情報】" +:+ nl);;
  total ← lift (format_timestamp
                  (match last segments with
                   | Some seg => PyFloat (end_ seg)
                   | None => PyInt 0
                   end));
  f_write ("総発話時間: " +:+ total +:+ nl);;
  f_write ("セグメント数: " +:+ pretty (length segments) +:+ nl);;
  (if include_speakers then
     let max_speaker :=
       match map (λ s, default 1 (speaker s)) segments with
       | x :: l => max_list x l
       | [] => 1
       end in
     f_write ("推定話者数: " +:+ pretty max_speaker +:+ nl)
   else mret tt);;
  f_write ("総文字数: " +:+ pretty (py_len full_text) +:+ nl).

(** Lines 189-191: [segments = result['segments']], passed through
    [self.detect_speakers(segments)] when speakers are included. *)
Definition shown_segments (result : whisper_result)
    (include_speakers : bool) : list segment :=
  let segments := result_segments result in
  if include_speakers
  then detect_speakers segments default_min_pause
  else segments.

(** Lines 200-201. *)
Definition detail_heading : list action :=
  [Write ("【詳細（タイムスタンプ付き）】" +:+ nl); Write (str_mul "-" 40 +:+ nl)].

(** The body of the [with] block (lines 178-227). *)
Definition report_body (result : whisper_result) (mp4_path : string)
    (include_speakers include_timestamps : bool) : script unit :=
  write_header result mp4_path;;
  let segments := shown_segments result include_speakers in
  let full_text := strip (result_text result) in
  write_full_text full_text;;
  (detail_heading, Returned tt);;
  write_segments include_timestamps include_speakers segments;;
  write_statistics include_speakers segments full_text.

Definition transcript_path (mp4_path : string) : string :=
  let base_name := path_stem mp4_path in
  let timestamp := now_stamp in
  os_path_join output_dir
    (base_name +:+ "_transcript_" +:+ timestamp +:+ ".txt").

(** [save_transcript(self, result, mp4_path, include_speakers=True,
    include_timestamps=True)] *)
Definition save_transcript (result : whisper_result) (mp4_path : string)
    (include_speakers include_timestamps : bool) (w : world)
    : outcome string * world :=
  let output_file := transcript_path mp4_path in
  match with_open_w output_file
          (report_body result mp4_path include_speakers include_timestamps)
          w with
  | (Returned _, w') =>
      (Returned output_file,
       add_stdout (nl +:+ "✅ 文字起こし結果を保存しました: " +:+ output_file) w')
  | (Raised e, w') =>
      (Raised e, add_error ("ファイル保存エラー: " +:+ e) w')
  end.

End Report.

(** *** A concrete setting

    Where the model is evaluated on an example the library calls are
    given by what they return on that example: the video is [talk.mp4],
    the output directory [transcriptions], and the timestamps converted
    are those of 0.0 s and 1.0 s, and a NaN, on which [timedelta]
    raises. *)

Definition talk_stem (p : string) : string := "talk".
Definition join_slash (a b : string) : string := a +:+ "/" +:+ b.
Definition whole_seconds_01 (x : float) : outcome Z :=
  if PrimFloat.eqb x 0 then Returned 0
  else if PrimFloat.eqb x 1 then Returned 1
  else if negb (PrimFloat.eqb x x)
  then Raised "cannot convert float NaN to integer"
  else Raised "not tabulated".

Definition talk_save : whisper_result → string → bool → bool → world
    → outcome string * world :=
  save_transcript "base" "transcriptions" talk_stem join_slash
    "20240101_120000" "2024-01-01 12:00:00" whole_seconds_01.

Definition talk_path : string :=
  "transcriptions/talk_transcript_20240101_120000.txt".

(** An empty disk on which everything succeeds. *)
Definition sound_world : world :=
  {| disk := ∅; stdout := []; error_log := [];
     open_fault := None; write_fault := None |}.

(** An empty disk that accepts three writes and is full at the fourth. *)
Definition full_world : world :=
  {| disk := ∅; stdout := []; error_log := [];
     open_fault := None;
     write_fault := Some (3%nat, "[Errno 28] No space left on device") |}.

End Mp4.

Import Mp4.

(** ** The speaker heuristic on Python objects

    [detect_speakers] receives a reference to a list of references to
    dicts.  Here the objects live in a heap, [segment.copy()] allocates,
    and [speaker_segments.append] updates the list object in place. *)

Module Heap.

Abbreviation loc := nat (only parsing).

Inductive obj : Type :=
  | ODict (d : segment)
  | OList (items : list loc).

Abbreviation heap := (gmap nat obj) (only parsing).

Definition as_dict (o : obj) : option segment :=
  match o with ODict d => Some d | OList _ => None end.
Definition as_list (o : obj) : option (list loc) :=
  match o with OList l => Some l | ODict _ => None end.

Definition get_dict (h : heap) (l : loc) : option segment :=
  h !! l ≫= as_dict.
Definition get_list (h : heap) (l : loc) : option (list loc) :=
  h !! l ≫= as_list.

(** A new object, at an address not in use. *)
Definition alloc (o : obj) (h : heap) : loc * heap :=
  let l := fresh (dom h) in (l, <[l := o]> h).

(** The [for] loop of [detect_speakers]; [items] is the content of the
    argument list, [out] the address of [speaker_segments].  [None] is a
    Python type or key error (an address that holds no object of the
    expected kind). *)
Fixpoint detect_loop (items : list loc) (min_pause : float) (out : loc)
    (i : nat) (rest : list loc) (st : Z * heap) : option (Z * heap) :=
  match rest with
  | [] => Some st
  | l :: rest' =>
      let '(current_speaker, h) := st in
      seg ← get_dict h l;
      current_speaker ←
        (if (0 <? i)%nat then
           p ← items !! (i - 1)%nat;
           prev ← get_dict h p;
           Some (if long_pause min_pause prev seg
                 then current_speaker + 1 else current_speaker)
         else Some current_speaker);
      (* segment_with_speaker = segment.copy();
         segment_with_speaker['speaker'] = current_speaker *)
      let '(l', h) := alloc (ODict (set_speaker current_speaker seg)) h in
      (* speaker_segments.append(segment_with_speaker) *)
      acc ← get_list h out;
      let h := <[out := OList (acc ++ [l'])]> h in
      detect_loop items min_pause out (S i) rest' (current_speaker, h)
  end.

(** [detect_speakers(self, segments, min_pause)] on references: the
    address of the returned list and the heap afterwards. *)
Definition detect_speakers (segments : loc) (min_pause : float) (h : heap)
    : option (loc * heap) :=
  items ← get_list h segments;
  match items with
  | [] => Some (alloc (OList []) h)
  | _ =>
      let '(speaker_segments, h) := alloc (OList []) h in
      '(_, h) ← detect_loop items min_pause speaker_segments 0 items (1, h);
      Some (speaker_segments, h)
  end.

(** The dicts a list of references points to. *)
Definition deref (h : heap) (ls : list loc) : option (list segment) :=
  mapM (get_dict h) ls.

End Heap.

(** ** The streaming worker ([teams_transcription.py]) *)

Module Teams.

Definition bytes : Type := list byte.

Definition sample_rate : Z := 16000.
(** [frames_per_buffer=self.chunk_size] frames of one 16-bit channel. *)
Definition chunk_size : Z := 1024.
Definition callback_bytes : Z := chunk_size * 2.

(** [buffer_duration = 3.0];
    [buffer_size = int(self.sample_rate * buffer_duration * 2)] *)
Definition buffer_size : Z := sample_rate * 3 * 2.
(** [overlap = buffer_size // 4] *)
Definition overlap : Z := buffer_size `div` 4.

(** The window of the specification, in samples, and its overlap. *)
Definition target_window_samples : Z := sample_rate * 3.
Definition overlap_samples : Z := target_window_samples `div` 4.

(** [len(b)] *)
Definition len (b : bytes) : Z := Z.of_nat (length b).

(** The number of 16-bit samples in a buffer of even length. *)
Definition samples (b : bytes) : Z := len b `div` 2.

(** [b[-n:]] *)
Definition last_bytes (n : Z) (b : bytes) : bytes :=
  if 0 <? n then drop (Z.to_nat (len b - n)) b
  else drop (Z.to_nat (- n)) b.

Inductive log_entry : Type :=
  | TranscribeError
  | WorkerError.

(** The fields of the application the worker touches, the worker's
    local [audio_buffer], and a record of what happened: the frames taken
    off the queue, the buffers handed to [transcribe_audio_chunk], and
    the buffers that reached [self.model.transcribe].  [output_file] is
    the list of lines appended to the transcript file; the console, which
    receives the same lines, is left out. *)
Record state : Type := State {
  is_recording : bool;
  audio_queue : list bytes;
  audio_buffer : bytes;
  output_file : list string;
  error_log : list log_entry;
  consumed : list bytes;
  windows : list bytes;
  asr_calls : list bytes
}.

Definition initial : state :=
  {| is_recording := true; audio_queue := []; audio_buffer := [];
     output_file := []; error_log := []; consumed := []; windows := [];
     asr_calls := [] |}.

Definition log (e : log_entry) (s : state) : state :=
  {| is_recording := is_recording s; audio_queue := audio_queue s;
     audio_buffer := audio_buffer s; output_file := output_file s;
     error_log := error_log s ++ [e]; consumed := consumed s;
     windows := windows s; asr_calls := asr_calls s |}.

(** [self.audio_queue.get()] followed by [audio_buffer += audio_data]. *)
Definition take_frame (s : state) : state :=
  match audio_queue s with
  | [] => s
  | audio_data :: q =>
      {| is_recording := is_recording s; audio_queue := q;
         audio_buffer := audio_buffer s ++ audio_data;
         output_file := output_file s; error_log := error_log s;
         consumed := consumed s ++ [audio_data];
         windows := windows s; asr_calls := asr_calls s |}
  end.

Definition set_buffer (b : bytes) (s : state) : state :=
  {| is_recording := is_recording s; audio_queue := audio_queue s;
     audio_buffer := b; output_file := output_file s;
     error_log := error_log s; consumed := consumed s;
     windows := windows s; asr_calls := asr_calls s |}.

Definition append_output (line : string) (s : state) : state :=
  {| is_recording := is_recording s; audio_queue := audio_queue s;
     audio_buffer := audio_buffer s; output_file := output_file s ++ [line];
     error_log := error_log s; consumed := consumed s;
     windows := windows s; asr_calls := asr_calls s |}.

Definition note_window (b : bytes) (s : state) : state :=
  {| is_recording := is_recording s; audio_queue := audio_queue s;
     audio_buffer := audio_buffer s; output_file := output_file s;
     error_log := error_log s; consumed := consumed s;
     windows := windows s ++ [b]; asr_calls := asr_calls s |}.

Definition note_asr_call (b : bytes) (s : state) : state :=
  {| is_recording := is_recording s; audio_queue := audio_queue s;
     audio_buffer := audio_buffer s; output_file := output_file s;
     error_log := error_log s; consumed := consumed s;
     windows := windows s; asr_calls := asr_calls s ++ [b] |}.

Definition stop (s : state) : state :=
  {| is_recording := false; audio_queue := audio_queue s;
     audio_buffer := audio_buffer s; output_file := output_file s;
     error_log := error_log s; consumed := consumed s;
     windows := windows s; asr_calls := asr_calls s |}.

(** [audio_callback(self, in_data, ...)] *)
Definition audio_callback (in_data : bytes) (s : state) : state :=
  if is_recording s then
    {| is_recording := is_recording s;
       audio_queue := audio_queue s ++ [in_data];
       audio_buffer := audio_buffer s; output_file := output_file s;
       error_log := error_log s; consumed := consumed s;
       windows := windows s; asr_calls := asr_calls s |}
  else s.

Section Worker.

(** [self.model.transcribe(audio_np, language='ja')['text']], or the
    exception the call raises. *)
Variable model_transcribe : bytes → outcome string.

(** [transcribe_audio_chunk(self, audio_data)] *)
Definition transcribe_audio_chunk (audio_data : bytes) (s : state)
    : option string * state :=
  (* np.frombuffer(..., dtype=np.int16) raises on an odd length *)
  if negb (len audio_data `mod` 2 =? 0) then
    (None, log TranscribeError s)
  (* len(audio_np) < self.sample_rate * 0.5 *)
  else if 2 * samples audio_data <? sample_rate then
    (None, s)
  else
    let s := note_asr_call audio_data s in
    match model_transcribe audio_data with
    | Raised _ => (None, log TranscribeError s)
    | Returned raw =>
        let text := strip raw in
        (if decide (text = "") then None else Some text, s)
    end.

(** One turn of the [while] loop of [transcription_worker]: [now] is
    the clock reading of line 106, [write_ok] tells whether appending to
    the transcript file succeeds. *)
Definition worker_iter (now : string) (write_ok : bool) (s : state)
    : state :=
  let s := take_frame s in
  if buffer_size <=? len (audio_buffer s) then
    let window := audio_buffer s in
    let '(text, s) := transcribe_audio_chunk window (note_window window s) in
    match text with
    | Some text =>
        let output_line := "[" +:+ now +:+ "] " +:+ text +:+ nl in
        if write_ok then
          let s := append_output output_line s in
          set_buffer (last_bytes overlap (audio_buffer s)) s
        else
          (* except Exception: logged, the buffer is left as it is *)
          log WorkerError s
    | None =>
        set_buffer (last_bytes overlap (audio_buffer s)) s
    end
  else s.

(** [self.is_recording or not self.audio_queue.empty()] *)
Definition loop_condition (s : state) : bool :=
  is_recording s || negb (bool_decide (audio_queue s = [])).

(** [transcription_worker(self)] running alone: turn [n] reads its clock
    and its write result from [env n]. *)
Fixpoint transcription_worker (fuel : nat) (env : nat → string * bool)
    (n : nat) (s : state) : option state :=
  if loop_condition s then
    match fuel with
    | O => None
    | S fuel' =>
        transcription_worker fuel' env (S n)
          (worker_iter (env n).1 (env n).2 s)
    end
  else Some s.

(** The capture thread, the controller and the worker interleaved: each
    callback, the stop signal and each turn of the worker's loop is taken
    as one indivisible event. *)
Inductive event : Type :=
  | Callback (in_data : bytes)
  | Stop
  | Iterate (now : string) (write_ok : bool).

Definition step (s : state) (e : event) : state :=
  match e with
  | Callback in_data => audio_callback in_data s
  | Stop => stop s
  | Iterate now write_ok =>
      if loop_condition s then worker_iter now write_ok s else s
  end.

Definition run (es : list event) (s : state) : state := foldl step s es.

End Worker.

(** *** A concrete session

    The capture callback delivers [chunk_size] frames at a time, 2048
    bytes; here they are silence.  The engine either hears nothing or
    answers with a word. *)

Definition callback_frame : bytes :=
  replicate (Z.to_nat callback_bytes) x00.

Definition silent_model (audio : bytes) : outcome string := Returned "".
Definition talking_model (audio : bytes) : outcome string :=
  Returned " hello".

(** The capture thread delivers a frame and the worker takes a turn,
    [n] times. *)
Definition capture_and_iterate (n : nat) : list event :=
  mjoin (replicate n [Callback callback_frame; Iterate "12:00:00" true]).

(** A buffer of exactly [buffer_size] bytes of silence. *)
Definition full_buffer_state : state :=
  set_buffer (replicate (Z.to_nat buffer_size) x00) initial.

(** Sixteen frames (a little over one second) are queued, then the
    session is stopped. *)
Definition stopped_with_one_second : state :=
  run silent_model (replicate 16 (Callback callback_frame) ++ [Stop]) initial.

End Teams.

(** ** The batch driver ([batch_mp4_processor.py]) *)

Module Batch.

Record options : Type := Options {
  language : string;
  include_speakers : bool;
  include_timestamps : bool;
  keep_audio : bool
}.

(** [self.processed_files], [self.failed_files]. *)
Record processor : Type := Processor {
  processed_files : list (string * string);
  failed_files : list (string * string)
}.

Definition new_processor : processor :=
  {| processed_files := []; failed_files := [] |}.

Section Driver.

(** Everything [process_mp4] depends on and changes. *)
Variable env : Type.
(** [self.app.process_mp4(mp4_path=..., ...)]: the output file, or the
    [Exception] raised. *)
Variable process_mp4 : string → options → env → outcome string * env.
(** [Path(p).name] *)
Variable path_name : string → string.
(** [f"{d:.1f}"] and [f"{d/60:.1f}"] for the time elapsed between two
    moments. *)
Variable seconds_between : env → env → string.
Variable minutes_between : env → env → string.

(** The processor, the outside, the console, and the calls of
    [process_mp4] made so far with their outcomes. *)
Record run_state : Type := RunState {
  proc : processor;
  outside : env;
  console : list string;
  attempts : list (string * outcome string)
}.

Definition say (lines : list string) (r : run_state) : run_state :=
  {| proc := proc r; outside := outside r;
     console := console r ++ lines; attempts := attempts r |}.

(** The body of [for i, mp4_path in enumerate(file_paths, 1)]. *)
Definition process_one (total_files : nat) (opts : options)
    (r : run_state) (i : nat) (mp4_path : string) : run_state :=
  let r := say [nl +:+ "📹 [" +:+ pretty i +:+ "/" +:+ pretty total_files
                  +:+ "] 処理中: " +:+ path_name mp4_path;
                str_mul "-" 40] r in
  let file_start := outside r in
  match process_mp4 mp4_path opts file_start with
  | (Returned output_file, w) =>
      {| proc := {| processed_files :=
                      processed_files (proc r) ++ [(mp4_path, output_file)];
                    failed_files := failed_files (proc r) |};
         outside := w;
         console := console r
           ++ ["✅ 完了 (" +:+ seconds_between file_start w +:+ "秒)"];
         attempts := attempts r ++ [(mp4_path, Returned output_file)] |}
  | (Raised e, w) =>
      {| proc := {| processed_files := processed_files (proc r);
                    failed_files := failed_files (proc r) ++ [(mp4_path, e)] |};
         outside := w;
         console := console r
           ++ ["❌ エラー (" +:+ seconds_between file_start w +:+ "秒): " +:+ e];
         attempts := attempts r ++ [(mp4_path, Raised e)] |}
  end.

Fixpoint process_loop (total_files : nat) (opts : options)
    (r : run_state) (i : nat) (rest : list string) : run_state :=
  match rest with
  | [] => r
  | mp4_path :: rest' =>
      process_loop total_files opts
        (process_one total_files opts r i mp4_path) (S i) rest'
  end.

(** [print_summary(self, total_duration)]: the lines printed. *)
Definition print_summary (p : processor) (secs mins : string)
    : list string :=
  [nl +:+ str_mul "=" 60;
   "🎉 一括処理完了";
   str_mul "=" 60;
   "⏱️  総処理時間: " +:+ secs +:+ "秒 (" +:+ mins +:+ "分)";
   "✅ 成功: " +:+ pretty (length (processed_files p)) +:+ "ファイル";
   "❌ 失敗: " +:+ pretty (length (failed_files p)) +:+ "ファイル"]
  ++ (match processed_files p with
      | [] => []
      | _ =>
          (nl +:+ "【成功したファイル】")
          :: map (λ '(mp4_path, output_file),
                    "  📁 " +:+ path_name mp4_path +:+ " -> "
                      +:+ path_name output_file)
               (processed_files p)
      end)
  ++ (match failed_files p with
      | [] => []
      | _ =>
          (nl +:+ "【失敗したファイル】")
          :: map (λ '(mp4_path, error),
                    "  ❌ " +:+ path_name mp4_path +:+ ": " +:+ error)
               (failed_files p)
      end).

(** [process_files(self, file_paths, language, include_speakers,
    include_timestamps, keep_audio)] *)
Definition process_files (file_paths : list string) (opts : options)
    (r : run_state) : run_state :=
  let total_files := length file_paths in
  let r := say ["🎬 " +:+ pretty total_files
                  +:+ "個のMP4ファイルを処理開始";
                str_mul "=" 60] r in
  let start_time := outside r in
  let r := process_loop total_files opts r 1 file_paths in
  say (print_summary (proc r)
         (seconds_between start_time (outside r))
         (minutes_between start_time (outside r))) r.

(** A processor just built, before any call of [process_files]. *)
Definition fresh_run (w : env) : run_state :=
  {| proc := new_processor; outside := w; console := []; attempts := [] |}.

End Driver.

(** The attempts that raised, with their errors, and those that
    returned, with their output files. *)
Definition failures (l : list (string * outcome string))
    : list (string * string) :=
  omap (λ '(p, o), match o with Raised e => Some (p, e) | Returned _ => None end) l.
Definition successes (l : list (string * outcome string))
    : list (string * string) :=
  omap (λ '(p, o), match o with Returned f => Some (p, f) | Raised _ => None end) l.

(** *** A concrete batch

    Three files, of which [bad.mp4] cannot be decoded. *)

Definition demo_process_mp4 (mp4_path : string) (opts : options) (w : unit)
    : outcome string * unit :=
  if decide (mp4_path = "bad.mp4")
  then (Raised "MoviePy error: failed to read the first frame", w)
  else (Returned ("transcriptions/" +:+ mp4_path +:+ ".txt"), w).

Definition demo_options : options :=
  {| language := "ja"; include_speakers := true;
     include_timestamps := true; keep_audio := false |}.

Definition demo_files : list string := ["a.mp4"; "bad.mp4"; "c.mp4"].

Definition demo_run : run_state unit :=
  process_files unit demo_process_mp4 (λ p, p) (λ _ _, "0.0") (λ _ _, "0.0")
    demo_files demo_options (fresh_run unit tt).

End Batch.

(** ** One video from file to report ([process_mp4]) *)

Module Pipeline.

(** [os.path.exists(p)], for files. *)
Definition path_exists (p : string) (w : world) : bool :=
  bool_decide (is_Some (disk w !! p)).

Section ProcessMp4.

Variables (model_size output_dir : string).
Variable path_stem : string → string.
Variable os_path_join : string → string → string.
Variables (now_stamp now_text : string).
Variable whole_seconds : float → outcome Z.
(** [tempfile.gettempdir()] *)
Variable tempdir : string.
(** MoviePy: [VideoFileClip(mp4_path)], [audio.write_audiofile(audio_path,
    ...)], and the two [close()]: whatever it does to the world, it
    returns or raises. *)
Variable moviepy_write_audio : string → string → world → outcome unit * world.
(** [self.model.transcribe(audio_path, language=language, ...)] *)
Variable whisper_transcribe :
  string → string → world → outcome whisper_result * world.
(** [os.remove(p)] raises [e] when [remove_fault p = Some e]. *)
Variable remove_fault : string → option string.

(** [extract_audio_from_mp4(self, mp4_path, audio_path=None)] *)
Definition extract_audio_from_mp4 (mp4_path : string)
    (audio_path : option string) (w : world) : outcome string * world :=
  let audio_path :=
    match audio_path with
    | None =>
        let base_name := path_stem mp4_path in
        os_path_join tempdir (base_name +:+ "_audio.wav")
    | Some p => p
    end in
  let w := add_stdout ("音声を抽出中: " +:+ mp4_path +:+ " -> " +:+ audio_path) w in
  match moviepy_write_audio mp4_path audio_path w with
  | (Returned _, w) =>
      (Returned audio_path, add_stdout ("音声抽出完了: " +:+ audio_path) w)
  | (Raised e, w) =>
      (Raised e, add_error ("音声抽出エラー: " +:+ e) w)
  end.

(** [transcribe_with_timestamps(self, audio_path, language="ja")] *)
Definition transcribe_with_timestamps (audio_path language : string)
    (w : world) : outcome whisper_result * world :=
  let w := add_stdout "音声を文字起こし中..." w in
  match whisper_transcribe audio_path language w with
  | (Returned result, w) => (Returned result, add_stdout "文字起こし完了" w)
  | (Raised e, w) => (Raised e, add_error ("文字起こしエラー: " +:+ e) w)
  end.

(** The [finally] block of [process_mp4] (lines 266-273); the warning
    goes to the same logger as the errors. *)
Definition cleanup (audio_path : option string) (keep_audio : bool)
    (w : world) : world :=
  match audio_path with
  | Some p =>
      if negb (bool_decide (p = "")) && path_exists p w && negb keep_audio
      then
        match remove_fault p with
        | None =>
            add_stdout ("一時音声ファイルを削除: " +:+ p)
              (set_disk (delete p (disk w)) w)
        | Some e => add_error ("一時ファイル削除失敗: " +:+ e) w
        end
      else w
  | None => w
  end.

(** [process_mp4(self, mp4_path, language="ja", include_speakers=True,
    include_timestamps=True, keep_audio=False)] *)
Definition process_mp4 (mp4_path language : string)
    (include_speakers include_timestamps keep_audio : bool) (w : world)
    : outcome string * world :=
  if negb (path_exists mp4_path w) then
    (Raised ("MP4ファイルが見つかりません: " +:+ mp4_path), w)
  else
    match extract_audio_from_mp4 mp4_path None w with
    | (Raised e, w) => (Raised e, cleanup None keep_audio w)
    | (Returned audio_path, w) =>
        match transcribe_with_timestamps audio_path language w with
        | (Raised e, w) => (Raised e, cleanup (Some audio_path) keep_audio w)
        | (Returned result, w) =>
            let '(r, w) :=
              save_transcript model_size output_dir path_stem os_path_join
                now_stamp now_text whole_seconds result mp4_path
                include_speakers include_timestamps w in
            (r, cleanup (Some audio_path) keep_audio w)
        end
    end.

(** [process_mp4] as the batch driver calls it. *)
Definition process_mp4_opts (mp4_path : string) (opts : Batch.options)
    (w : world) : outcome string * world :=
  process_mp4 mp4_path (Batch.language opts) (Batch.include_speakers opts)
    (Batch.include_timestamps opts) (Batch.keep_audio opts) w.

End ProcessMp4.

(** *** A concrete pipeline

    MoviePy writes the sound track next to nothing else; Whisper hears
    one sentence; nothing can be removed from the temporary directory in
    the second variant. *)

Definition demo_moviepy (mp4_path audio_path : string) (w : world)
    : outcome unit * world :=
  (Returned tt, set_disk (<[audio_path := "RIFF"]> (disk w)) w).

Definition demo_whisper (audio_path language : string) (w : world)
    : outcome whisper_result * world :=
  (Returned {| result_text := " hello";
               result_segments :=
                 [ {| start := 0; end_ := 1; text := " hello";
                      speaker := None |} ];
               result_language := Some language |}, w).

Definition demo_process_mp4 : string → string → bool → bool → bool → world
    → outcome string * world :=
  process_mp4 "base" "transcriptions" talk_stem join_slash
    "20240101_120000" "2024-01-01 12:00:00" whole_seconds_01 "/tmp"
    demo_moviepy demo_whisper (λ _, None).

(** A disk that holds the video and nothing else. *)
Definition talk_world : world :=
  {| disk := {[ "talk.mp4" := "video" ]}; stdout := []; error_log := [];
     open_fault := None; write_fault := None |}.

End Pipeline.

(** ** The command line of the batch driver *)

Module Cli.

Import Batch.

(** The keyword arguments [main] passes on: the dict [process_options],
    by key. *)
Record kwargs : Type := Kwargs {
  kw_language : option string;
  kw_include_speakers : option bool;
  kw_include_timestamps : option bool;
  kw_keep_audio : option bool;
  kw_recursive : option bool
}.

(** [f(file_paths, **kwargs)] for [process_files(self, file_paths,
    language="ja", include_speakers=True, include_timestamps=True,
    keep_audio=False)]: the parameters are filled from the keywords and
    the defaults; [recursive] is not a parameter.  (Recent Pythons put the
    class name in front of the message.) *)
Definition bind_process_files (kw : kwargs) : outcome options :=
  match kw_recursive kw with
  | Some _ =>
      Raised "process_files() got an unexpected keyword argument 'recursive'"
  | None =>
      Returned {| language := default "ja" (kw_language kw);
                  include_speakers := default true (kw_include_speakers kw);
                  include_timestamps :=
                    default true (kw_include_timestamps kw);
                  keep_audio := default false (kw_keep_audio kw) |}
  end.

(** [s.lower()] on the letters A-Z; a string that contains no other
    cased character is lowered exactly, and no other character lowers to
    an ASCII letter except the Kelvin sign. *)
Definition lower_ascii (c : ascii) : ascii :=
  let n := nat_of_ascii c in
  if ((65 <=? n) && (n <=? 90))%nat then ascii_of_nat (n + 32) else c.
Fixpoint lower (s : string) : string :=
  match s with
  | EmptyString => EmptyString
  | String c r => String (lower_ascii c) (lower r)
  end.

(** The namespace [argparse] returns. *)
Record args : Type := Args {
  arg_directory : option string;
  arg_files : option (list string);
  arg_model : string;
  arg_language : string;
  arg_no_recursive : bool;
  arg_no_speakers : bool;
  arg_no_timestamps : bool;
  arg_keep_audio : bool
}.

Section Commands.

Variable env : Type.
Variable process_mp4 : string → options → env → outcome string * env.
Variable path_name : string → string.
Variables seconds_between minutes_between : env → env → string.
Variable os_path_join : string → string → string.
(** [glob.glob(pattern, recursive=...)] *)
Variable glob : string → bool → env → list string.
(** What the user types at [input(...)]. *)
Variable response : string.

(** [find_mp4_files(self, directory, recursive=True)] *)
Definition find_mp4_files (directory : string) (recursive : bool) (w : env)
    : list string :=
  let mp4_files :=
    if recursive then
      let pattern := os_path_join (os_path_join directory "**") "*.mp4" in
      glob pattern true w
    else
      let pattern := os_path_join directory "*.mp4" in
      glob pattern false w in
  merge_sort String.le mp4_files.

(** [process_directory(self, directory, **kwargs)] *)
Definition process_directory (directory : string) (kw : kwargs)
    (r : run_state env) : outcome unit * run_state env :=
  let mp4_files :=
    find_mp4_files directory (default true (kw_recursive kw))
      (outside env r) in
  match mp4_files with
  | [] =>
      (Returned tt,
       say env ["❌ MP4ファイルが見つかりません: " +:+ directory] r)
  | _ =>
      let r :=
        say env
          (["📁 ディレクトリ: " +:+ directory;
            "🔍 見つかったMP4ファイル: " +:+ pretty (length mp4_files)
              +:+ "個"]
           ++ map (λ mp4_file, "  📹 " +:+ path_name mp4_file) mp4_files
           ++ [nl +:+ pretty (length mp4_files)
                 +:+ "個のファイルを処理しますか？ (y/n): "]) r in
      let response := lower response in
      if negb (bool_decide (response = "y")) then
        (Returned tt, say env ["❌ 処理をキャンセルしました"] r)
      else
        match bind_process_files kw with
        | Raised e => (Raised e, r)
        | Returned opts =>
            (Returned tt,
             process_files env process_mp4 path_name seconds_between
               minutes_between mp4_files opts r)
        end
  end.

(** [main()] from the line after the processor is built: [r] is the run
    state at that point. *)
Definition main (a : args) (r : run_state env)
    : outcome unit * run_state env :=
  let r := say env ["🎬 MP4一括文字起こしアプリ";
                    "🧠 使用モデル: " +:+ arg_model a;
                    "🌐 言語: " +:+ arg_language a] r in
  let process_options :=
    {| kw_language := Some (arg_language a);
       kw_include_speakers := Some (negb (arg_no_speakers a));
       kw_include_timestamps := Some (negb (arg_no_timestamps a));
       kw_keep_audio := Some (arg_keep_audio a);
       kw_recursive := None |} in
  match arg_directory a with
  | Some directory =>
      if negb (bool_decide (directory = "")) then
        let process_options :=
          {| kw_language := kw_language process_options;
             kw_include_speakers := kw_include_speakers process_options;
             kw_include_timestamps := kw_include_timestamps process_options;
             kw_keep_audio := kw_keep_audio process_options;
             kw_recursive := Some (negb (arg_no_recursive a)) |} in
        process_directory directory process_options r
      else
        match arg_files a, bind_process_files process_options with
        | Some files, Returned opts =>
            (Returned tt,
             process_files env process_mp4 path_name seconds_between
               minutes_between files opts r)
        | Some _, Raised e => (Raised e, r)
        | None, _ => (Raised "object of type 'NoneType' has no len()", r)
        end
  | None =>
      match arg_files a, bind_process_files process_options with
      | Some files, Returned opts =>
          (Returned tt,
           process_files env process_mp4 path_name seconds_between
             minutes_between files opts r)
      | Some _, Raised e => (Raised e, r)
      | None, _ => (Raised "object of type 'NoneType' has no len()", r)
      end
  end.

End Commands.

(** *** A concrete directory

    [glob] finds two videos under [videos]; the user answers [Y]. *)

Definition demo_glob (pattern : string) (recursive : bool) (w : unit)
    : list string :=
  ["videos/b.mp4"; "videos/a.mp4"].

Definition demo_args : args :=
  {| arg_directory := Some "videos"; arg_files := None;
     arg_model := "base"; arg_language := "ja";
     arg_no_recursive := false; arg_no_speakers := false;
     arg_no_timestamps := false; arg_keep_audio := false |}.

(** The keywords of a direct call
    [process_directory(d, language="ja")]. *)
Definition demo_kwargs : kwargs :=
  {| kw_language := Some "ja"; kw_include_speakers := None;
     kw_include_timestamps := None; kw_keep_audio := None;
     kw_recursive := None |}.

Definition demo_directory : string → kwargs → run_state unit
    → outcome unit * run_state unit :=
  process_directory unit Batch.demo_process_mp4 (λ p, p) (λ _ _, "0.0")
    (λ _ _, "0.0") join_slash demo_glob "Y".

Definition demo_main : args → run_state unit
    → outcome unit * run_state unit :=
  main unit Batch.demo_process_mp4 (λ p, p) (λ _ _, "0.0") (λ _ _, "0.0")
    join_slash demo_glob "Y".

End Cli.

(** ** What a streaming session was given *)

Module Session.

Import Teams.

(** The frames the capture callback put on the queue: those delivered
    while [is_recording] was set. *)
Fixpoint accepted (recording : bool) (es : list event) : list bytes :=
  match es with
  | [] => []
  | Callback in_data :: es' =>
      if recording then in_data :: accepted recording es'
      else accepted recording es'
  | Stop :: es' => accepted false es'
  | Iterate _ _ :: es' => accepted recording es'
  end.

(** Every append to the transcript file succeeds. *)
Definition appends_succeed (es : list event) : Prop :=
  Forall (λ e, match e with Iterate _ ok => ok = true | _ => True end) es.

(** The callbacks deliver at most [m] bytes at a time. *)
Definition frames_at_most (m : Z) (es : list event) : Prop :=
  Forall (λ e, match e with Callback d => len d ≤ m | _ => True end) es.

(** The turns of the worker's loop among the events. *)
(** Two frames of three seconds each, each followed by a turn of the
    worker. *)
Definition long_frame : bytes := replicate (Z.to_nat buffer_size) x00.
Definition two_long_frames : list event :=
  [Callback long_frame; Iterate "12:00:00" true;
   Callback long_frame; Iterate "12:00:03" true].

Fixpoint turns (es : list event) : nat :=
  match es with
  | [] => 0
  | Iterate _ _ :: es' => S (turns es')
  | _ :: es' => turns es'
  end.

End Session.

(** * Properties *)

(** *** The loop and the recursion agree *)

Lemma detect_loop_assign (min_pause : float) (pre rest : list segment)
    (cur : Z) (acc : list segment) :
  snd (detect_loop (pre ++ rest) min_pause (cur, acc) (length pre) rest)
  = acc ++ assign_speakers min_pause (last pre) cur rest.
Proof.
  revert pre cur acc.
  induction rest as [|s rest IH]; intros pre cur acc.
  - simpl. by rewrite app_nil_r.
  - cbn [detect_loop].
    assert (Hstep : detect_step (pre ++ s :: rest) min_pause (cur, acc)
              (length pre) s
            = (match last pre with
               | Some p => if long_pause min_pause p s then cur + 1 else cur
               | None => cur
               end,
               acc ++ [set_speaker
                 (match last pre with
                  | Some p => if long_pause min_pause p s then cur + 1 else cur
                  | None => cur
                  end) s])).
    { unfold detect_step.
      induction pre as [|p0 pre' _] using rev_ind; [done|].
      rewrite length_app, last_snoc. simpl length.
      replace (0 <? length pre' + 1)%nat with true
        by (symmetry; apply Nat.ltb_lt; lia).
      replace (length pre' + 1 - 1)%nat with (length pre') by lia.
      rewrite <- app_assoc. simpl.
      rewrite lookup_app_r by lia.
      by rewrite Nat.sub_diag. }
    rewrite Hstep.
    replace (pre ++ s :: rest) with ((pre ++ [s]) ++ rest)
      by (by rewrite <- app_assoc).
    replace (S (length pre)) with (length (pre ++ [s]))
      by (rewrite length_app; simpl; lia).
    rewrite IH, last_snoc. cbn [assign_speakers].
    by rewrite <- app_assoc.
Qed.

Lemma detect_speakers_assign (segments : list segment) (min_pause : float) :
  detect_speakers segments min_pause
  = assign_speakers min_pause None 1 segments.
Proof.
  destruct segments as [|s l]; [done|].
  exact (detect_loop_assign min_pause [] (s :: l) 1 []).
Qed.

(** *** The worked example *)

(** C4. On the three segments with (start, end) = (0,1), (1.5,2), (5,6),
    whatever their texts, the speaker ids are 1, 1, 2 for
    [min_pause = 2.0] and 1, 1, 1 for [min_pause = 10.0]. *)
Theorem detect_speakers_example (t1 t2 t3 : string) :
  let segments :=
    [ {| start := 0; end_ := 1; text := t1; speaker := None |};
      {| start := 1.5; end_ := 2; text := t2; speaker := None |};
      {| start := 5; end_ := 6; text := t3; speaker := None |} ] in
  speaker_ids (detect_speakers segments 2.0%float)
    = [Some 1; Some 1; Some 2]
  ∧ speaker_ids (detect_speakers segments 10.0%float)
    = [Some 1; Some 1; Some 1].
Proof. split; vm_compute; reflexivity. Qed.

(** *** The ids never decrease *)

Lemma assign_speakers_ids (min_pause : float) (rest : list segment) :
  ∀ (prev : option segment) (cur : Z),
    ∃ ids : list Z,
      speaker_ids (assign_speakers min_pause prev cur rest) = Some <$> ids
      ∧ Forall (Z.le cur) ids
      ∧ StronglySorted Z.le ids
      ∧ (prev = None → rest ≠ [] → head ids = Some cur).
Proof.
  induction rest as [|s rest IH]; intros prev cur.
  - exists []. repeat split; [constructor .. | done].
  - cbn [assign_speakers].
    set (cur' := match prev with
                 | Some p => if long_pause min_pause p s then cur + 1 else cur
                 | None => cur
                 end).
    assert (Hle : cur ≤ cur').
    { subst cur'. destruct prev as [p|]; [|lia].
      destruct (long_pause min_pause p s); lia. }
    destruct (IH (Some s) cur') as (ids & Hids & Hge & Hsorted & _).
    exists (cur' :: ids). split; [|split; [|split]].
    + unfold speaker_ids in *. cbn. by rewrite Hids.
    + constructor; [done|].
      eapply Forall_impl; [exact Hge|]. intros v Hv. cbv beta in Hv. lia.
    + by constructor.
    + intros -> _. done.
Qed.

Lemma strongly_sorted_lookup (ids : list Z) :
  StronglySorted Z.le ids →
  ∀ (i j : nat) (a b : Z),
    (i ≤ j)%nat → ids !! i = Some a → ids !! j = Some b → a ≤ b.
Proof.
  induction 1 as [|x l Hs IH Hall]; intros i j a b Hij Hi Hj; [done|].
  destruct i as [|i], j as [|j]; simplify_eq/=; try lia.
  - rewrite Forall_forall in Hall. apply Hall.
    by eapply list_elem_of_lookup_2.
  - eapply (IH i j); [lia|done..].
Qed.

(** C5. For a non-empty list of segments and any [min_pause], every
    output segment carries a speaker id, the ids are integers from 1
    upwards, the first one is 1, and an id is never smaller than an
    earlier one. *)
Theorem detect_speakers_ids_monotone (segments : list segment)
    (min_pause : float) :
  segments ≠ [] →
  ∃ ids : list Z,
    speaker_ids (detect_speakers segments min_pause) = Some <$> ids
    ∧ head ids = Some 1
    ∧ Forall (λ v, 1 ≤ v) ids
    ∧ ∀ (i j : nat) (a b : Z),
        (i ≤ j)%nat → ids !! i = Some a → ids !! j = Some b → a ≤ b.
Proof.
  intros Hne. rewrite detect_speakers_assign.
  destruct (assign_speakers_ids min_pause segments None 1)
    as (ids & Hids & Hge & Hsorted & Hhead).
  exists ids. repeat split; [done|by apply Hhead|done|].
  by apply strongly_sorted_lookup.
Qed.

Lemma detect_speakers_ids_monotone_witness :
  ∃ ids : list Z,
    speaker_ids
      (detect_speakers
         [ {| start := 0; end_ := 1; text := "a"; speaker := None |};
           {| start := 4; end_ := 5; text := "b"; speaker := None |} ]
         default_min_pause) = Some <$> ids
    ∧ head ids = Some 1
    ∧ Forall (λ v, 1 ≤ v) ids
    ∧ ∀ (i j : nat) (a b : Z),
        (i ≤ j)%nat → ids !! i = Some a → ids !! j = Some b → a ≤ b.
Proof. apply detect_speakers_ids_monotone. discriminate. Defined.

(** *** The heap: nothing is mutated, everything returned is new *)

Lemma assign_speakers_length (min_pause : float) (rest : list segment) :
  ∀ (prev : option segment) (cur : Z),
    length (assign_speakers min_pause prev cur rest) = length rest.
Proof.
  induction rest as [|s rest IH]; intros prev cur; [done|].
  cbn [assign_speakers length]. by rewrite IH.
Qed.

Lemma detect_speakers_length (segments : list segment) (min_pause : float) :
  length (detect_speakers segments min_pause) = length segments.
Proof. rewrite detect_speakers_assign. apply assign_speakers_length. Qed.

Lemma get_dict_Some (h : Heap.heap) (l : Heap.loc) (v : segment) :
  Heap.get_dict h l = Some v ↔ h !! l = Some (Heap.ODict v).
Proof.
  unfold Heap.get_dict. destruct (h !! l) as [[d|ls]|]; simpl; naive_solver.
Qed.

Lemma deref_Some (h : Heap.heap) (ls : list Heap.loc) (vs : list segment) :
  Heap.deref h ls = Some vs
  ↔ Forall2 (λ l v, h !! l = Some (Heap.ODict v)) ls vs.
Proof.
  unfold Heap.deref. rewrite mapM_Some.
  split; intros H; (eapply Forall2_impl; [exact H|]);
    intros l v; by rewrite get_dict_Some.
Qed.

Lemma alloc_fresh (o : Heap.obj) (h : Heap.heap) :
  ((Heap.alloc o h).1 ∉ dom h)
  ∧ (Heap.alloc o h).2 = <[(Heap.alloc o h).1 := o]> h.
Proof. split; [apply is_fresh|done]. Qed.

Section HeapLoop.

Variables (h0 : Heap.heap) (items : list Heap.loc) (vals : list segment).
Variables (min_pause : float) (out : Heap.loc).
Hypothesis Hvals : Forall2 (λ l v, h0 !! l = Some (Heap.ODict v)) items vals.
Hypothesis Hout : out ∉ dom h0.

(** The loop on the heap computes what the loop on values computes,
    leaves every object of [h0] as it was, and fills the list at [out]
    with addresses that did not exist in [h0]. *)
Lemma heap_detect_loop (rest : list Heap.loc) :
  ∀ (i : nat) (cur : Z) (h : Heap.heap) (acc : list Heap.loc)
    (acc_vals : list segment),
    drop i items = rest →
    h0 ⊆ h →
    h !! out = Some (Heap.OList acc) →
    Forall (.∉ dom h0) acc →
    Forall2 (λ l v, h !! l = Some (Heap.ODict v)) acc acc_vals →
    ∃ (h' : Heap.heap) (acc' : list Heap.loc),
      Heap.detect_loop items min_pause out i rest (cur, h)
        = Some ((Mp4.detect_loop vals min_pause (cur, acc_vals) i
                   (drop i vals)).1, h')
      ∧ h0 ⊆ h'
      ∧ h' !! out = Some (Heap.OList acc')
      ∧ Forall (.∉ dom h0) acc'
      ∧ Forall2 (λ l v, h' !! l = Some (Heap.ODict v)) acc'
          (Mp4.detect_loop vals min_pause (cur, acc_vals) i (drop i vals)).2.
Proof.
  induction rest as [|l rest IH];
    intros i cur h acc acc_vals Hdrop Hsub Hlist Hnew Hacc.
  - assert (Hlen : (length items ≤ i)%nat).
    { apply (f_equal length) in Hdrop. rewrite length_drop in Hdrop.
      simpl in Hdrop. lia. }
    rewrite (drop_ge vals) by (by rewrite <- (Forall2_length _ _ _ Hvals)).
    exists h, acc. by simpl.
  - assert (Hi : items !! i = Some l).
    { rewrite <- (Nat.add_0_r i), <- lookup_drop, Hdrop. done. }
    assert (Hrest : drop (S i) items = rest).
    { replace (S i) with (i + 1)%nat by lia.
      rewrite <- drop_drop, Hdrop. done. }
    destruct (Forall2_lookup_l _ _ _ _ _ Hvals Hi) as (v & Hv & Hlv).
    rewrite (drop_S vals v i Hv). cbn [Heap.detect_loop Mp4.detect_loop].
    assert (Hget : Heap.get_dict h l = Some v).
    { apply get_dict_Some. by eapply lookup_weaken. }
    rewrite Hget. cbn [mbind option_bind].
    (* the counter after the test of the pause *)
    set (cur' := if (0 <? i)%nat then
                   match vals !! (i - 1)%nat with
                   | Some prev =>
                       if long_pause min_pause prev v then cur + 1 else cur
                   | None => cur
                   end
                 else cur).
    assert (Hcur :
      (if (0 <? i)%nat then
         p ← items !! (i - 1)%nat;
         prev ← Heap.get_dict h p;
         Some (if long_pause min_pause prev v then cur + 1 else cur)
       else Some cur) = Some cur').
    { subst cur'. destruct (0 <? i)%nat eqn:Hpos; [|done].
      apply Nat.ltb_lt in Hpos.
      destruct (lookup_lt_is_Some_2 items (i - 1)) as [p Hp].
      { apply lookup_lt_Some in Hi. lia. }
      destruct (Forall2_lookup_l _ _ _ _ _ Hvals Hp) as (vp & Hvp & Hlp).
      rewrite Hp, Hvp. cbn [mbind option_bind].
      assert (Hgp : Heap.get_dict h p = Some vp).
      { apply get_dict_Some. by eapply lookup_weaken. }
      by rewrite Hgp. }
    rewrite Hcur. cbn [mbind option_bind].
    assert (Hstep : detect_step vals min_pause (cur, acc_vals) i v
                    = (cur', acc_vals ++ [set_speaker cur' v])) by done.
    rewrite Hstep.
    destruct (alloc_fresh (Heap.ODict (set_speaker cur' v)) h)
      as [Hfresh Halloc].
    destruct (Heap.alloc (Heap.ODict (set_speaker cur' v)) h)
      as [l' h1] eqn:Hal.
    cbn [fst snd] in Hfresh, Halloc. subst h1.
    assert (Hl'out : l' ≠ out).
    { intros ->. apply Hfresh. apply elem_of_dom. by eexists. }
    assert (Hl'h0 : h0 !! l' = None).
    { apply not_elem_of_dom. intros Hin. apply Hfresh.
      by apply (subseteq_dom h0 h Hsub). }
    assert (Hgl : Heap.get_list
                    (<[l' := Heap.ODict (set_speaker cur' v)]> h) out
                  = Some acc).
    { unfold Heap.get_list. rewrite lookup_insert_ne by done.
      by rewrite Hlist. }
    set (h2 := <[out := Heap.OList (acc ++ [l'])]>
                 (<[l' := Heap.ODict (set_speaker cur' v)]> h)).
    destruct (IH (S i) cur' h2 (acc ++ [l'])
                (acc_vals ++ [set_speaker cur' v])) as (h' & acc' & IH').
    + exact Hrest.
    + subst h2. apply insert_subseteq_r; [by apply not_elem_of_dom|].
      by apply insert_subseteq_r.
    + subst h2. by rewrite lookup_insert_eq.
    + apply Forall_app. split; [done|]. constructor; [|constructor].
      by apply not_elem_of_dom.
    + apply Forall2_app.
      * eapply Forall2_impl; [exact Hacc|]. intros la va Hla. cbv beta in *.
        subst h2. rewrite lookup_insert_ne by congruence.
        rewrite lookup_insert_ne; [done|].
        intros ->. apply Hfresh. apply elem_of_dom. by eexists.
      * constructor; [|constructor]. subst h2.
        rewrite lookup_insert_ne by done. by rewrite lookup_insert_eq.
    + exists h', acc'. rewrite Hgl. exact IH'.
Qed.

End HeapLoop.

Lemma detect_speakers_single (s : segment) (min_pause : float) :
  speaker_ids (detect_speakers [s] min_pause) = [Some 1].
Proof. done. Qed.

(** C8. [detect_speakers], called on a list object whose items are
    dicts, returns; every object that existed before the call, the list
    and its dicts included, is unchanged afterwards ([h ⊆ h']); the
    result is a list object at a new address whose items are dicts at
    new addresses; it holds what the function on values computes, has as
    many items as the input, is empty exactly when the input is, and for
    a single segment carries speaker id 1. *)
Theorem detect_speakers_pure (h : Heap.heap) (segments : Heap.loc)
    (items : list Heap.loc) (vals : list segment) (min_pause : float) :
  h !! segments = Some (Heap.OList items) →
  Heap.deref h items = Some vals →
  ∃ (r : Heap.loc) (h' : Heap.heap) (out : list Heap.loc),
    Heap.detect_speakers segments min_pause h = Some (r, h')
    ∧ h ⊆ h'
    ∧ (r ∉ dom h)
    ∧ Forall (.∉ dom h) out
    ∧ h' !! r = Some (Heap.OList out)
    ∧ Heap.deref h' out = Some (Mp4.detect_speakers vals min_pause)
    ∧ length out = length items
    ∧ (out = [] ↔ items = [])
    ∧ (length items = 1%nat →
       speaker_ids (Mp4.detect_speakers vals min_pause) = [Some 1]).
Proof.
  intros Hseg Hderef. apply deref_Some in Hderef.
  pose proof (Forall2_length _ _ _ Hderef) as Hlen.
  assert (Hone : length items = 1%nat →
                 speaker_ids (Mp4.detect_speakers vals min_pause) = [Some 1]).
  { intros H1. rewrite H1 in Hlen.
    destruct vals as [|s [|]]; try discriminate.
    apply detect_speakers_single. }
  unfold Heap.detect_speakers, Heap.get_list.
  rewrite Hseg. cbn [mbind option_bind Heap.as_list].
  destruct (alloc_fresh (Heap.OList []) h) as [Hfresh Halloc].
  destruct (Heap.alloc (Heap.OList []) h) as [r h1] eqn:Hal.
  cbn [fst snd] in Hfresh, Halloc. subst h1.
  assert (Hsub : h ⊆ <[r := Heap.OList []]> h).
  { apply insert_subseteq. by apply not_elem_of_dom. }
  destruct items as [|l items'].
  - apply Forall2_nil_inv_l in Hderef. subst vals.
    exists r, (<[r := Heap.OList []]> h), [].
    rewrite lookup_insert_eq. repeat split; first [done | constructor].
  - destruct (heap_detect_loop h (l :: items') vals min_pause r Hderef
                Hfresh (l :: items') 0%nat 1 (<[r := Heap.OList []]> h) [] [])
      as (h' & out & Hrun & Hsub' & Hr & Hnew & Hout).
    { done. } { done. } { by rewrite lookup_insert_eq. }
    { constructor. } { constructor. }
    rewrite Hrun. cbn [mbind option_bind fst snd].
    rewrite drop_0 in Hout.
    assert (Hres : (Mp4.detect_loop vals min_pause (1, []) 0 vals).2
                   = Mp4.detect_speakers vals min_pause).
    { destruct vals; [by apply Forall2_nil_inv_r in Hderef|done]. }
    rewrite Hres in Hout.
    pose proof (Forall2_length _ _ _ Hout) as Hlen'.
    rewrite detect_speakers_length in Hlen'.
    exists r, h', out. repeat split; try done.
    + by apply deref_Some.
    + lia.
    + intros ->. simpl in *. lia.
Qed.

Lemma detect_speakers_pure_witness :
  let d := {| start := 0; end_ := 1; text := "a"; speaker := None |} in
  let h : Heap.heap := {[ 0%nat := Heap.ODict d; 1%nat := Heap.OList [0%nat] ]} in
  ∃ (r : Heap.loc) (h' : Heap.heap) (out : list Heap.loc),
    Heap.detect_speakers 1%nat default_min_pause h = Some (r, h')
    ∧ h ⊆ h'
    ∧ (r ∉ dom h)
    ∧ Forall (.∉ dom h) out
    ∧ h' !! r = Some (Heap.OList out)
    ∧ Heap.deref h' out = Some (Mp4.detect_speakers [d] default_min_pause)
    ∧ length out = length [0%nat]
    ∧ (out = [] ↔ [0%nat] = [])
    ∧ (length [0%nat] = 1%nat →
       speaker_ids (Mp4.detect_speakers [d] default_min_pause) = [Some 1]).
Proof.
  intros d h.
  apply (detect_speakers_pure h 1%nat [0%nat] [d] default_min_pause);
    vm_compute; reflexivity.
Defined.

(** ** Writing the report *)

Lemma str_app_assoc (a b c : string) : (a +:+ b) +:+ c = a +:+ (b +:+ c).
Proof.
  induction a as [|x a IH]; [done|].
  change (String x ((a +:+ b) +:+ c) = String x (a +:+ (b +:+ c))).
  by rewrite IH.
Qed.

Lemma str_app_nil_r (a : string) : a +:+ "" = a.
Proof.
  induction a as [|x a IH]; [done|].
  change (String x (a +:+ "") = String x a). by rewrite IH.
Qed.

Lemma concat_str_app (l1 l2 : list string) :
  concat_str (l1 ++ l2) = concat_str l1 +:+ concat_str l2.
Proof.
  induction l1 as [|s l1 IH]; [done|].
  change (s +:+ concat_str (l1 ++ l2)
          = (s +:+ concat_str l1) +:+ concat_str l2).
  by rewrite IH, str_app_assoc.
Qed.

Lemma written_app (a1 a2 : list action) :
  written (a1 ++ a2) = written a1 ++ written a2.
Proof. unfold written. apply omap_app. Qed.

Lemma script_bind_returned {A B} (acts : list action) (a : A)
    (k : A → script B) :
  ((acts, Returned a) ≫= k) = (acts ++ (k a).1, (k a).2).
Proof. done. Qed.

Lemma script_bind_raised {A B} (acts : list action) (e : string)
    (k : A → script B) :
  ((acts, Raised e) ≫= k) = (acts, Raised e).
Proof. done. Qed.

(** What [perform] leaves in the file: what was there, followed by the
    first [k] strings written; all of them when it returns, not all of
    them when a write raised. *)
Lemma perform_spec (path : string) (acts : list action) :
  ∀ (w : world) (c : string),
    disk w !! path = Some c →
    ∃ k : nat,
      (k ≤ length (written acts))%nat
      ∧ disk (perform path acts w).2 !! path
        = Some (c +:+ concat_str (take k (written acts)))
      ∧ ((perform path acts w).1 = Returned tt → k = length (written acts))
      ∧ (∀ e, (perform path acts w).1 = Raised e →
              (k < length (written acts))%nat)
      ∧ (∀ p, p ≠ path → disk (perform path acts w).2 !! p = disk w !! p).
Proof.
  induction acts as [|[s|s] acts IH]; intros w c Hc.
  - exists 0%nat. cbn. rewrite str_app_nil_r. repeat split; done.
  - cbn [perform].
    set (w1 := set_disk (<[path := default "" (disk w !! path) +:+ s]>
                           (disk w)) w).
    assert (Hw1 : disk w1 !! path = Some (c +:+ s)).
    { subst w1. cbn. rewrite lookup_insert_eq. by rewrite Hc. }
    assert (Hoth : ∀ p, p ≠ path → disk w1 !! p = disk w !! p).
    { intros p Hp. subst w1. cbn. by rewrite lookup_insert_ne. }
    destruct (write_fault w) as [[[|n] e]|] eqn:Hf.
    + exists 0%nat. cbn. rewrite str_app_nil_r.
      split.
      { lia. }
      split.
      { done. }
      split.
      { done. }
      split.
      { intros; lia. }
      done.
    + destruct (IH (set_write_fault (Some (n, e)) w1) (c +:+ s) Hw1)
        as (k & Hk & Hdisk & Hret & Hraise & Hother).
      exists (S k).
      change (written (Write s :: acts)) with (s :: written acts).
      change (concat_str (take (S k) (s :: written acts)))
        with (s +:+ concat_str (take k (written acts))).
      rewrite Hdisk, str_app_assoc. cbn [length].
      split; [lia|]. split; [done|].
      split; [intros H; by rewrite (Hret H)|].
      split; [intros e' H; specialize (Hraise e' H); lia|].
      intros p Hp. rewrite (Hother p Hp). by apply Hoth.
    + destruct (IH w1 (c +:+ s) Hw1)
        as (k & Hk & Hdisk & Hret & Hraise & Hother).
      exists (S k).
      change (written (Write s :: acts)) with (s :: written acts).
      change (concat_str (take (S k) (s :: written acts)))
        with (s +:+ concat_str (take k (written acts))).
      rewrite Hdisk, str_app_assoc. cbn [length].
      split; [lia|]. split; [done|].
      split; [intros H; by rewrite (Hret H)|].
      split; [intros e' H; specialize (Hraise e' H); lia|].
      intros p Hp. rewrite (Hother p Hp). by apply Hoth.
  - cbn [perform written omap].
    destruct (IH (add_stdout s w) c Hc) as (k & Hk & Hdisk & Hret & Hraise & Ho).
    exists k. repeat split; done.
Qed.

(** Without a write fault every command is carried out. *)
Lemma perform_no_fault (path : string) (acts : list action) :
  ∀ w : world,
    write_fault w = None →
    (perform path acts w).1 = Returned tt.
Proof.
  induction acts as [|[s|s] acts IH]; intros w Hf; [done| |].
  - cbn [perform]. rewrite Hf. by apply IH.
  - cbn [perform]. by apply IH.
Qed.

(** The [with] block, case by case. *)
Lemma with_open_w_spec {A} (path : string) (body : script A) (w : world) :
  (∀ p, p ≠ path →
        disk (with_open_w path body w).2 !! p = disk w !! p)
  ∧ match (with_open_w path body w).1 with
    | Returned a =>
        body.2 = Returned a
        ∧ disk (with_open_w path body w).2 !! path
          = Some (concat_str (written body.1))
    | Raised e =>
        (open_fault w = Some e ∧ (with_open_w path body w).2 = w)
        ∨ (open_fault w = None
           ∧ ∃ k : nat,
               (k ≤ length (written body.1))%nat
               ∧ disk (with_open_w path body w).2 !! path
                 = Some (concat_str (take k (written body.1))))
    end.
Proof.
  unfold with_open_w. destruct (open_fault w) as [e|] eqn:Hopen.
  - cbn. split; [done|]. by left.
  - set (w0 := set_disk (<[path := ""]> (disk w)) w).
    assert (H0 : disk w0 !! path = Some "").
    { subst w0. cbn. by rewrite lookup_insert_eq. }
    destruct (perform_spec path body.1 w0 "" H0)
      as (k & Hk & Hdisk & Hret & _ & Hother).
    destruct (perform path body.1 w0) as [[[]|e] w'] eqn:Hp;
      cbn [fst snd] in *.
    + split.
      * intros p Hp'. rewrite (Hother p Hp'). subst w0. cbn.
        by rewrite lookup_insert_ne.
      * rewrite (Hret eq_refl), firstn_all in Hdisk.
        destruct body.2 as [a|e] eqn:Hb.
        -- done.
        -- right. split; [done|]. exists (length (written body.1)).
           by rewrite firstn_all.
    + split.
      * intros p Hp'. rewrite (Hother p Hp'). subst w0. cbn.
        by rewrite lookup_insert_ne.
      * right. split; [done|]. by exists k.
Qed.

Lemma with_open_w_no_fault {A} (path : string) (body : script A)
    (w : world) :
  open_fault w = None → write_fault w = None →
  (with_open_w path body w).1 = body.2
  ∧ disk (with_open_w path body w).2 !! path
    = Some (concat_str (written body.1)).
Proof.
  intros Hopen Hwrite. unfold with_open_w. rewrite Hopen.
  set (w0 := set_disk (<[path := ""]> (disk w)) w).
  assert (H0 : disk w0 !! path = Some "").
  { subst w0. cbn. by rewrite lookup_insert_eq. }
  assert (Hf0 : write_fault w0 = None) by done.
  pose proof (perform_no_fault path body.1 w0 Hf0) as Hret.
  destruct (perform_spec path body.1 w0 "" H0)
    as (k & _ & Hdisk & Hall & _ & _).
  rewrite (Hall Hret), firstn_all in Hdisk.
  destruct (perform path body.1 w0) as [[[]|e] w'] eqn:Hp;
    cbn [fst snd] in *; [done|discriminate].
Qed.

Section ReportFacts.

Variables (model_size output_dir : string).
Variables (path_stem : string → string).
Variables (os_path_join : string → string → string).
Variables (now_stamp now_text : string).
Variable whole_seconds : float → outcome Z.

Let save := save_transcript model_size output_dir path_stem os_path_join
              now_stamp now_text whole_seconds.
Let body := report_body model_size now_text whole_seconds.
Let path := transcript_path output_dir path_stem os_path_join now_stamp.

(** The body is the header, the full text, the heading of the detail
    block, then the lines and the statistics. *)
Lemma report_body_parts (result : whisper_result) (mp4_path : string)
    (include_speakers include_timestamps : bool) :
  let segments := shown_segments result include_speakers in
  let full_text := strip (result_text result) in
  let tail :=
    write_segments whole_seconds include_timestamps include_speakers segments;;
    write_statistics whole_seconds include_speakers segments full_text in
  body result mp4_path include_speakers include_timestamps
  = ((write_header model_size now_text result mp4_path).1
       ++ (write_full_text full_text).1 ++ detail_heading ++ tail.1,
     tail.2).
Proof. done. Qed.

(** What [write_full_text] writes. *)
Lemma full_text_block (full_text : string) :
  concat_str (written (write_full_text full_text).1)
  = "【全文】" +:+ nl +:+ str_mul "-" 40 +:+ nl +:+ full_text +:+ nl +:+ nl.
Proof.
  transitivity (("【全文】" +:+ nl) +:+ (str_mul "-" 40 +:+ nl)
                  +:+ (full_text +:+ nl +:+ nl) +:+ ""); [reflexivity|].
  by rewrite !str_app_assoc, str_app_nil_r.
Qed.

(** [save_transcript] in terms of the [with] block. *)
Lemma save_transcript_unfold (result : whisper_result) (mp4_path : string)
    (include_speakers include_timestamps : bool) (w : world) :
  let r := with_open_w (path mp4_path)
             (body result mp4_path include_speakers include_timestamps) w in
  (save result mp4_path include_speakers include_timestamps w).1
    = match r.1 with
      | Returned _ => Returned (path mp4_path)
      | Raised e => Raised e
      end
  ∧ disk (save result mp4_path include_speakers include_timestamps w).2
    = disk r.2.
Proof.
  subst save body path. unfold save_transcript. cbv zeta.
  by destruct (with_open_w _ _ w) as [[a|e] w'].
Qed.

(** When [save_transcript] returns, it returns the output path, the
    body ran to its end, and the file holds all the body wrote. *)
Lemma save_transcript_returned (result : whisper_result) (mp4_path : string)
    (include_speakers include_timestamps : bool) (w w' : world)
    (p : string) :
  save result mp4_path include_speakers include_timestamps w
    = (Returned p, w') →
  p = path mp4_path
  ∧ (body result mp4_path include_speakers include_timestamps).2
    = Returned tt
  ∧ disk w' !! path mp4_path
    = Some (concat_str
              (written
                 (body result mp4_path include_speakers
                    include_timestamps).1)).
Proof.
  intros Hsave.
  destruct (save_transcript_unfold result mp4_path include_speakers
              include_timestamps w) as [Hres Hdisk].
  rewrite Hsave in Hres, Hdisk. cbn [fst snd] in Hres, Hdisk.
  destruct (with_open_w_spec (path mp4_path)
              (body result mp4_path include_speakers include_timestamps) w)
    as [_ Hcase].
  destruct (with_open_w (path mp4_path) _ w).1 as [[]|e]; [|done].
  destruct Hcase as [Hb Hfile]. rewrite <- Hdisk in Hfile.
  split_and!; [congruence|done..].
Qed.

End ReportFacts.

Section ReportTheorems.

Variables (model_size output_dir : string).
Variables (path_stem : string → string).
Variables (os_path_join : string → string → string).
Variables (now_stamp now_text : string).
Variable whole_seconds : float → outcome Z.

Let save := save_transcript model_size output_dir path_stem os_path_join
              now_stamp now_text whole_seconds.
Let body := report_body model_size now_text whole_seconds.
Let path := transcript_path output_dir path_stem os_path_join now_stamp.

(** C3, as the code has it.  The report is written straight to the
    output path.  Files at other paths are untouched.  When the call
    returns, the body ran to its end and the file holds everything it
    wrote.  When the call raises, either opening the file failed and the
    disk is as before, or the file at the output path exists and holds the
    strings written before the failure. *)
Theorem save_transcript_outcomes (result : whisper_result)
    (mp4_path : string) (include_speakers include_timestamps : bool)
    (w : world) :
  let b := body result mp4_path include_speakers include_timestamps in
  let r := save result mp4_path include_speakers include_timestamps w in
  (∀ p, p ≠ path mp4_path → disk r.2 !! p = disk w !! p)
  ∧ match r.1 with
    | Returned p =>
        p = path mp4_path
        ∧ b.2 = Returned tt
        ∧ disk r.2 !! path mp4_path = Some (concat_str (written b.1))
    | Raised e =>
        (open_fault w = Some e ∧ disk r.2 = disk w)
        ∨ (open_fault w = None
           ∧ ∃ k : nat,
               (k ≤ length (written b.1))%nat
               ∧ disk r.2 !! path mp4_path
                 = Some (concat_str (take k (written b.1))))
    end.
Proof.
  intros b r. subst r.
  destruct (save_transcript_unfold model_size output_dir path_stem
              os_path_join now_stamp now_text whole_seconds result mp4_path
              include_speakers include_timestamps w) as [Hres Hdisk].
  fold save path body in Hres, Hdisk. fold b in Hres, Hdisk.
  rewrite Hres, Hdisk.
  destruct (with_open_w_spec (path mp4_path) b w) as [Hother Hcase].
  split; [exact Hother|].
  destruct (with_open_w (path mp4_path) b w).1 as [[]|e].
  - destruct Hcase as [Hb Hfile]. done.
  - destruct Hcase as [[Ho Hw]|[Ho Hk]]; [left|right]; [|done].
    split; [done|]. by rewrite Hw.
Qed.

(** C9, as the code has it.  When [save_transcript] returns, the file it
    names contains the full-text block: the heading, the rule, and the
    result's text with leading and trailing white space stripped,
    followed by an empty line; this for both flags either way.  A text
    that has no white space at either end is therefore there verbatim. *)
Theorem save_transcript_full_text (result : whisper_result)
    (mp4_path : string) (include_speakers include_timestamps : bool)
    (w w' : world) (p : string) :
  save result mp4_path include_speakers include_timestamps w
    = (Returned p, w') →
  (∃ pre post : string,
     disk w' !! p
     = Some (pre +:+ ("【全文】" +:+ nl +:+ str_mul "-" 40 +:+ nl
                      +:+ strip (result_text result) +:+ nl +:+ nl)
               +:+ post))
  ∧ (strip (result_text result) = result_text result →
     ∃ pre post : string,
       disk w' !! p
       = Some (pre +:+ ("【全文】" +:+ nl +:+ str_mul "-" 40 +:+ nl
                        +:+ result_text result +:+ nl +:+ nl)
                 +:+ post)).
Proof.
  intros Hsave.
  destruct (save_transcript_returned model_size output_dir path_stem
              os_path_join now_stamp now_text whole_seconds result mp4_path
              include_speakers include_timestamps w w' p Hsave)
    as (-> & _ & Hfile).
  fold path body in Hfile.
  assert (Hblock : ∃ pre post : string,
    disk w' !! path mp4_path
    = Some (pre +:+ ("【全文】" +:+ nl +:+ str_mul "-" 40 +:+ nl
                     +:+ strip (result_text result) +:+ nl +:+ nl)
              +:+ post)).
  { subst body.
    rewrite report_body_parts in Hfile. cbv zeta in Hfile. cbn [fst] in Hfile.
    rewrite !written_app, !concat_str_app, full_text_block in Hfile.
    eexists (concat_str (written (write_header _ _ _ _).1)), _.
    rewrite Hfile. reflexivity. }
  split; [exact Hblock|]. intros <-. exact Hblock.
Qed.

End ReportTheorems.

Section EmptyResult.

Variables (model_size output_dir : string).
Variables (path_stem : string → string).
Variables (os_path_join : string → string → string).
Variables (now_stamp now_text : string).
Variable whole_seconds : float → outcome Z.

(** C10. For a result without segments, on a file system that refuses
    nothing, [save_transcript] returns the output path; no detail line is
    written; and the file is the header, the full text, the heading of
    the detail block and then at once the statistics, with duration
    00:00:00, segment count 0 and, when speakers are included, speaker
    count 1. *)
Theorem save_transcript_no_segments (S : string) (lang : option string)
    (mp4_path : string) (include_speakers include_timestamps : bool)
    (w : world) :
  open_fault w = None → write_fault w = None →
  let result :=
    {| result_text := S; result_segments := []; result_language := lang |} in
  let r := save_transcript model_size output_dir path_stem os_path_join
             now_stamp now_text whole_seconds result mp4_path
             include_speakers include_timestamps w in
  let p := transcript_path output_dir path_stem os_path_join now_stamp
             mp4_path in
  r.1 = Returned p
  ∧ written (write_segments whole_seconds include_timestamps include_speakers
               (shown_segments result include_speakers)).1 = []
  ∧ disk r.2 !! p
    = Some (concat_str
        (written (write_header model_size now_text result mp4_path).1
         ++ written (write_full_text (strip S)).1
         ++ ["【詳細（タイムスタンプ付き）】" +:+ nl; str_mul "-" 40 +:+ nl]
         ++ [nl +:+ str_mul "=" 60 +:+ nl;
             "【統計情報】" +:+ nl;
             "総発話時間: 00:00:00" +:+ nl;
             "セグメント数: 0" +:+ nl]
         ++ (if include_speakers then ["推定話者数: 1" +:+ nl] else [])
         ++ ["総文字数: " +:+ pretty (py_len (strip S)) +:+ nl])).
Proof.
  intros Hopen Hwrite result r p.
  set (b := report_body model_size now_text whole_seconds result mp4_path
              include_speakers include_timestamps).
  destruct (save_transcript_unfold model_size output_dir path_stem
              os_path_join now_stamp now_text whole_seconds result mp4_path
              include_speakers include_timestamps w) as [Hres Hdisk].
  destruct (with_open_w_no_fault p b w Hopen Hwrite) as [Hret Hfile].
  fold p b in Hres, Hdisk. fold r in Hres, Hdisk.
  assert (Hb2 : b.2 = Returned tt) by (subst b; by destruct include_speakers).
  split; [|split].
  - by rewrite Hres, Hret, Hb2.
  - by destruct include_speakers.
  - rewrite Hdisk, Hfile. subst b. by destruct include_speakers.
Qed.

End EmptyResult.

Lemma save_transcript_no_segments_witness :
  let result :=
    {| result_text := "hello"; result_segments := [];
       result_language := Some "ja" |} in
  let r := talk_save result "talk.mp4" true true sound_world in
  r.1 = Returned talk_path
  ∧ written (write_segments whole_seconds_01 true true
               (shown_segments result true)).1 = []
  ∧ disk r.2 !! talk_path
    = Some (concat_str
        (written (write_header "base" "2024-01-01 12:00:00" result
                    "talk.mp4").1
         ++ written (write_full_text (strip "hello")).1
         ++ ["【詳細（タイムスタンプ付き）】" +:+ nl; str_mul "-" 40 +:+ nl]
         ++ [nl +:+ str_mul "=" 60 +:+ nl;
             "【統計情報】" +:+ nl;
             "総発話時間: 00:00:00" +:+ nl;
             "セグメント数: 0" +:+ nl]
         ++ ["推定話者数: 1" +:+ nl]
         ++ ["総文字数: " +:+ pretty (py_len (strip "hello")) +:+ nl])).
Proof.
  exact (save_transcript_no_segments "base" "transcriptions" talk_stem
           join_slash "20240101_120000" "2024-01-01 12:00:00"
           whole_seconds_01 "hello" (Some "ja") "talk.mp4" true true
           sound_world eq_refl eq_refl).
Defined.

(** *** The report on examples *)

Lemma save_transcript_full_text_witness :
  let result :=
    {| result_text := " hello world "; result_segments := [];
       result_language := Some "en" |} in
  let w' := (talk_save result "talk.mp4" true false sound_world).2 in
  (∃ pre post : string,
     disk w' !! talk_path
     = Some (pre +:+ ("【全文】" +:+ nl +:+ str_mul "-" 40 +:+ nl
                      +:+ strip (result_text result) +:+ nl +:+ nl)
               +:+ post))
  ∧ (strip (result_text result) = result_text result →
     ∃ pre post : string,
       disk w' !! talk_path
       = Some (pre +:+ ("【全文】" +:+ nl +:+ str_mul "-" 40 +:+ nl
                        +:+ result_text result +:+ nl +:+ nl)
                 +:+ post)).
Proof.
  intros result w'.
  apply (save_transcript_full_text "base" "transcriptions" talk_stem
           join_slash "20240101_120000" "2024-01-01 12:00:00"
           whole_seconds_01 result "talk.mp4" true false sound_world w'
           talk_path).
  vm_compute. reflexivity.
Defined.

(** C9, as stated, fails.  Whisper's text for English speech starts with
    a space.  For the text [" hello world"] the call returns and the
    report holds ["hello world"]: the text itself, with its leading
    space, occurs nowhere in the file. *)
Lemma full_text_not_verbatim :
  let S := " hello world" in
  let result :=
    {| result_text := S; result_segments := [];
       result_language := Some "en" |} in
  let r := talk_save result "talk.mp4" true true sound_world in
  r.1 = Returned talk_path
  ∧ ∃ content : string,
      disk r.2 !! talk_path = Some content
      ∧ contains S content = false
      ∧ contains (strip S) content = true.
Proof.
  intros S result r. split; [vm_compute; reflexivity|].
  eexists. split; [vm_compute; reflexivity|].
  split; vm_compute; reflexivity.
Qed.

(** C3, as stated, fails.  On a disk that is full at the fourth write
    the call raises, and the output path, where there was no file, now
    has a file holding the first three lines of the header. *)
Lemma save_transcript_leaves_partial_file :
  let result :=
    {| result_text := "hello"; result_segments := [];
       result_language := Some "ja" |} in
  let r := talk_save result "talk.mp4" true true full_world in
  r.1 = Raised "[Errno 28] No space left on device"
  ∧ disk full_world !! talk_path = None
  ∧ disk r.2 !! talk_path
    = Some (str_mul "=" 60 +:+ nl
            +:+ "MP4動画ファイル音声文字起こし結果" +:+ nl
            +:+ str_mul "=" 60 +:+ nl).
Proof. intros result r. split_and!; vm_compute; reflexivity. Qed.

(** The same without any fault of the file system: a segment whose
    start is a NaN makes [format_timestamp] raise inside the loop, after
    the header, the full text and the heading of the detail block have
    been written; they stay in the file. *)
Lemma save_transcript_partial_on_bad_timestamp :
  let result :=
    {| result_text := "hello";
       result_segments :=
         [ {| start := PrimFloat.nan; end_ := 1; text := "hello";
              speaker := None |} ];
       result_language := Some "ja" |} in
  let r := talk_save result "talk.mp4" true true sound_world in
  r.1 = Raised "cannot convert float NaN to integer"
  ∧ disk r.2 !! talk_path
    = Some (concat_str
        (written (write_header "base" "2024-01-01 12:00:00" result
                    "talk.mp4").1
         ++ written (write_full_text "hello").1
         ++ written detail_heading)).
Proof. intros result r. split_and!; vm_compute; reflexivity. Qed.

(** *** The detail lines *)

Lemma detail_line_cases (start_time end_time : string) (seg : segment) :
  detail_line true true start_time end_time seg
  = "[" +:+ start_time +:+ " - " +:+ end_time +:+ "] "
      +:+ speaker_info seg +:+ ": " +:+ strip (text seg)
  ∧ detail_line true false start_time end_time seg
    = "[" +:+ start_time +:+ " - " +:+ end_time +:+ "] "
        +:+ strip (text seg)
  ∧ detail_line false false start_time end_time seg = strip (text seg).
Proof. done. Qed.

(** C7, where the code departs from it.  With timestamps disabled and
    speakers enabled the line written for a segment is its stripped text
    and nothing else, for every segment: the speaker label is left out
    although speakers are enabled.  On the segment (0.0, 1.0, " hello")
    labelled by [detect_speakers] the line is ["hello"], where with both
    flags enabled it is ["[00:00:00 - 00:00:01] 話者1: hello"]. *)
Theorem detail_line_speakers_only (seg : segment) :
  (∀ start_time end_time : string,
     detail_line false true start_time end_time seg = strip (text seg))
  ∧ (∀ whole_seconds : float → outcome Z,
       written (write_segment whole_seconds false true seg).1 = []
       ∨ written (write_segment whole_seconds false true seg).1
         = [strip (text seg) +:+ nl])
  ∧ (let segments :=
       detect_speakers
         [ {| start := 0; end_ := 1; text := " hello"; speaker := None |} ]
         default_min_pause in
     written (write_segments whole_seconds_01 false true segments).1
       = ["hello" +:+ nl]
     ∧ written (write_segments whole_seconds_01 true true segments).1
       = ["[00:00:00 - 00:00:01] 話者1: hello" +:+ nl]).
Proof.
  split; [done|]. split; [|split; vm_compute; reflexivity].
  intros whole_seconds. unfold write_segment.
  destruct (format_timestamp whole_seconds (PyFloat (start seg)))
    as [st|e] eqn:Hs; [|by left].
  destruct (format_timestamp whole_seconds (PyFloat (end_ seg)))
    as [et|e] eqn:He; [|left]; unfold lift.
  - right. rewrite !script_bind_returned. done.
  - rewrite script_bind_returned. done.
Qed.

(** ** The streaming worker *)

Import Teams.

Lemma overlap_value : overlap = 24000.
Proof. reflexivity. Qed.

Lemma buffer_size_value : buffer_size = 96000.
Proof. reflexivity. Qed.

Lemma len_last_bytes (b : bytes) :
  overlap ≤ len b → len (last_bytes overlap b) = overlap.
Proof.
  rewrite overlap_value. unfold last_bytes, len. cbn [Z.ltb Z.compare].
  intros H. rewrite length_drop. lia.
Qed.

Lemma len_app (a b : bytes) : len (a ++ b) = len a + len b.
Proof. unfold len. rewrite length_app. lia. Qed.

Section WorkerFacts.

Variable model_transcribe : bytes → outcome string.

Let iter := worker_iter model_transcribe.

(** What [transcribe_audio_chunk] changes: the error log, and the record
    of engine calls, by at most its argument. *)
Lemma transcribe_audio_chunk_frame (audio_data : bytes) (s : state) :
  let r := transcribe_audio_chunk model_transcribe audio_data s in
  is_recording r.2 = is_recording s
  ∧ audio_queue r.2 = audio_queue s
  ∧ audio_buffer r.2 = audio_buffer s
  ∧ output_file r.2 = output_file s
  ∧ consumed r.2 = consumed s
  ∧ windows r.2 = windows s
  ∧ (asr_calls r.2 = asr_calls s
     ∨ asr_calls r.2 = asr_calls s ++ [audio_data]).
Proof.
  unfold transcribe_audio_chunk.
  destruct (negb (len audio_data `mod` 2 =? 0)); [by repeat split; try left|].
  destruct (2 * samples audio_data <? sample_rate);
    [by repeat split; try left|].
  destruct (model_transcribe audio_data) as [raw|e];
    cbn; repeat split; by right.
Qed.

(** One turn of the loop. *)
Lemma worker_iter_facts (now : string) (write_ok : bool) (s : state) :
  let s1 := take_frame s in
  let s' := iter now write_ok s in
  is_recording s' = is_recording s
  ∧ audio_queue s' = tail (audio_queue s)
  ∧ consumed s' = consumed s1
  ∧ (len (audio_buffer s1) < buffer_size → s' = s1)
  ∧ (buffer_size ≤ len (audio_buffer s1) →
     windows s' = windows s ++ [audio_buffer s1]
     ∧ (write_ok = true →
        audio_buffer s' = last_bytes overlap (audio_buffer s1)))
  ∧ (asr_calls s' = asr_calls s
     ∨ (asr_calls s' = asr_calls s ++ [audio_buffer s1]
        ∧ buffer_size ≤ len (audio_buffer s1))).
Proof.
  intros s1 s'. subst s' iter. unfold worker_iter. fold s1.
  assert (Hq : audio_queue s1 = tail (audio_queue s)
               ∧ is_recording s1 = is_recording s
               ∧ windows s1 = windows s ∧ asr_calls s1 = asr_calls s).
  { subst s1. unfold take_frame.
    destruct (audio_queue s) eqn:E; cbn; rewrite ?E; done. }
  destruct Hq as (Hq & Hrec & Hwin & Hasr).
  destruct (buffer_size <=? len (audio_buffer s1)) eqn:Hfull.
  - apply Z.leb_le in Hfull.
    pose proof (transcribe_audio_chunk_frame (audio_buffer s1)
                  (note_window (audio_buffer s1) s1)) as Hframe.
    cbv zeta in Hframe.
    destruct (transcribe_audio_chunk model_transcribe (audio_buffer s1)
                (note_window (audio_buffer s1) s1)) as [text s2].
    cbn [fst snd] in Hframe.
    destruct Hframe as (H1 & H2 & H3 & H4 & H5 & H6 & H7).
    cbn in H1, H2, H3, H4, H5, H6, H7.
    assert (Hcalls : asr_calls s2 = asr_calls s
                     ∨ asr_calls s2 = asr_calls s ++ [audio_buffer s1]
                       ∧ buffer_size ≤ len (audio_buffer s1)).
    { rewrite <- Hasr. destruct H7 as [->| ->]; [by left|by right]. }
    destruct text as [text|]; [destruct write_ok|]; cbn;
      rewrite ?H1, ?H2, ?H3, ?H5, ?H6, ?Hwin, ?Hq, ?Hrec;
      split_and!; try done; try (intros; exfalso; lia).
  - apply Z.leb_gt in Hfull.
    split_and!; try done; try (intros; exfalso; lia). by left.
Qed.

End WorkerFacts.

Section WorkerTheorems.

Variable model_transcribe : bytes → outcome string.

Lemma take_frame_cons (s : state) (frame : bytes) (rest : list bytes) :
  audio_queue s = frame :: rest →
  audio_buffer (take_frame s) = audio_buffer s ++ frame
  ∧ consumed (take_frame s) = consumed s ++ [frame]
  ∧ windows (take_frame s) = windows s
  ∧ asr_calls (take_frame s) = asr_calls s.
Proof. intros H. unfold take_frame. by rewrite H. Qed.

(** C1, as the code has it.  When a turn of the loop finds at least
    [buffer_size] bytes accumulated and the transcript file can be
    appended to, the window handed over is the whole accumulated buffer,
    of at least [target_window_samples] samples; afterwards the buffer is
    the last [overlap] bytes of that window, that is
    [target_window_samples / 4] samples; and the next frame taken off the
    queue is appended to that tail. *)
Theorem worker_iter_window (now : string) (write_ok : bool) (s : state) :
  let window := audio_buffer (take_frame s) in
  let s' := worker_iter model_transcribe now write_ok s in
  buffer_size ≤ len window →
  write_ok = true →
  windows s' = windows s ++ [window]
  ∧ target_window_samples ≤ samples window
  ∧ audio_buffer s' = last_bytes overlap window
  ∧ len (audio_buffer s') = overlap
  ∧ samples (audio_buffer s') = overlap_samples
  ∧ 4 * overlap_samples = target_window_samples
  ∧ (∀ (frame : bytes) (rest : list bytes),
       audio_queue s' = frame :: rest →
       audio_buffer (take_frame s') = last_bytes overlap window ++ frame).
Proof.
  intros window s' Hfull Hok.
  destruct (worker_iter_facts model_transcribe now write_ok s)
    as (_ & _ & _ & _ & Hdispatch & _).
  destruct (Hdispatch Hfull) as [Hwin Htrim]. specialize (Htrim Hok).
  fold s' window in Hwin, Htrim.
  assert (Hlen : len (audio_buffer s') = overlap).
  { rewrite Htrim. apply len_last_bytes.
    rewrite overlap_value. rewrite buffer_size_value in Hfull. lia. }
  split_and!; try done.
  - unfold samples. apply Z.div_le_lower_bound; [lia|].
    rewrite buffer_size_value in Hfull.
    change (2 * target_window_samples) with 96000. lia.
  - unfold samples. by rewrite Hlen.
  - intros frame rest Hq.
    destruct (take_frame_cons s' frame rest Hq) as [Hbuf _].
    by rewrite Hbuf, Htrim.
Qed.

(** When appending to the transcript file raises, the [except] branch
    is taken and the buffer is not trimmed: here the engine returns a
    word, the append fails, and all 96000 bytes stay in the buffer. *)
Lemma worker_iter_append_failure :
  let s' := worker_iter talking_model "12:00:00" false full_buffer_state in
  len (audio_buffer s') = 96000
  ∧ output_file s' = []
  ∧ error_log s' = [WorkerError].
Proof. intros s'. split_and!; vm_compute; reflexivity. Qed.

(** Once the session is stopped the capture callback queues nothing, so
    the worker is alone with the queue. *)
Lemma audio_callback_stopped (in_data : bytes) (s : state) :
  is_recording s = false → audio_callback in_data s = s.
Proof. intros H. unfold audio_callback. by rewrite H. Qed.

(** After the stop signal the loop condition is the queue being
    non-empty. *)
Lemma loop_condition_stopped (s : state) :
  is_recording s = false →
  loop_condition s = negb (bool_decide (audio_queue s = [])).
Proof. intros H. unfold loop_condition. by rewrite H. Qed.

(** The worker running alone after the stop signal. *)
Lemma drain_spec (env : nat → string * bool) (q : list bytes) :
  ∀ (n fuel : nat) (s : state),
    audio_queue s = q →
    is_recording s = false →
    (length q ≤ fuel)%nat →
    ∃ s' : state,
      transcription_worker model_transcribe fuel env n s = Some s'
      ∧ audio_queue s' = []
      ∧ is_recording s' = false
      ∧ consumed s' = consumed s ++ q
      ∧ (∀ w, w ∈ asr_calls s' → w ∈ asr_calls s ∨ buffer_size ≤ len w)
      ∧ (len (audio_buffer s) + len (concat q) < buffer_size →
         asr_calls s' = asr_calls s
         ∧ windows s' = windows s
         ∧ audio_buffer s' = audio_buffer s ++ concat q).
Proof.
  induction q as [|frame q IH]; intros n fuel s Hq Hrec Hfuel.
  - exists s.
    assert (Hstop : loop_condition s = false).
    { rewrite loop_condition_stopped, Hq by done. done. }
    split.
    { destruct fuel; cbn [transcription_worker]; by rewrite Hstop. }
    rewrite !app_nil_r. split_and!; try done. intros w Hw. by left.
  - assert (Hgo : loop_condition s = true).
    { rewrite loop_condition_stopped, Hq by done. done. }
    destruct fuel as [|fuel]; [simpl in Hfuel; lia|].
    cbn [transcription_worker]. rewrite Hgo.
    set (s1 := worker_iter model_transcribe (env n).1 (env n).2 s).
    destruct (worker_iter_facts model_transcribe (env n).1 (env n).2 s)
      as (Hrec1 & Hq1 & Hcons1 & Hsmall & _ & Hcalls).
    fold s1 in Hrec1, Hq1, Hcons1, Hsmall, Hcalls.
    destruct (take_frame_cons s frame q Hq) as (Hbuf & Hcons & Hwin & Hasr).
    rewrite Hq in Hq1. cbn [tail] in Hq1.
    destruct (IH (S n) fuel s1 Hq1) as (s' & Hrun & Hq' & Hrec' & Hcons' & Hold & Hpart).
    { by rewrite Hrec1. }
    { simpl in Hfuel. lia. }
    exists s'. split_and!; try done.
    + rewrite Hcons', Hcons1, Hcons. by rewrite <- app_assoc.
    + intros w Hw. destruct (Hold w Hw) as [Hin|Hbig]; [|by right].
      destruct Hcalls as [Heq|[Heq Hbig]].
      * left. by rewrite <- Heq.
      * rewrite Heq in Hin. apply elem_of_app in Hin as [Hin|Hin]; [by left|].
        apply list_elem_of_singleton in Hin. subst w. by right.
    + intros Hless. simpl concat in Hless. rewrite len_app in Hless.
      assert (Hs1 : s1 = take_frame s).
      { apply Hsmall. rewrite Hbuf, len_app.
        assert (0 ≤ len (concat q)) by (unfold len; lia). lia. }
      destruct Hpart as (Ha & Hw & Hb).
      { rewrite Hs1, Hbuf, len_app. lia. }
      rewrite Ha, Hw, Hb, Hs1, Hasr, Hwin, Hbuf.
      simpl concat. by rewrite <- app_assoc.
Qed.

(** C2, as the code has it.  After the stop signal the worker takes
    every queued frame, in order, and returns.  The engine is called only
    on buffers of at least [buffer_size] bytes.  When what is buffered and
    queued stays below [buffer_size], no window is handed over and the
    engine is not called at all; the audio is still in the local buffer
    when the function returns, however long it is. *)
Theorem worker_drains (env : nat → string * bool) (n fuel : nat)
    (s : state) :
  is_recording s = false →
  (length (audio_queue s) ≤ fuel)%nat →
  ∃ s' : state,
    transcription_worker model_transcribe fuel env n s = Some s'
    ∧ audio_queue s' = []
    ∧ consumed s' = consumed s ++ audio_queue s
    ∧ (∀ w, w ∈ asr_calls s' → w ∈ asr_calls s ∨ buffer_size ≤ len w)
    ∧ (len (audio_buffer s) + len (concat (audio_queue s)) < buffer_size →
       asr_calls s' = asr_calls s
       ∧ windows s' = windows s
       ∧ audio_buffer s' = audio_buffer s ++ concat (audio_queue s)).
Proof.
  intros Hrec Hfuel.
  destruct (drain_spec env (audio_queue s) n fuel s eq_refl Hrec Hfuel)
    as (s' & Hrun & Hq & _ & Hcons & Hcalls & Hpart).
  by exists s'.
Qed.

End WorkerTheorems.

(** *** The worker on a concrete session *)

Lemma worker_iter_window_witness :
  let s := full_buffer_state in
  let window := audio_buffer (take_frame s) in
  let s' := worker_iter silent_model "12:00:00" true s in
  windows s' = windows s ++ [window]
  ∧ target_window_samples ≤ samples window
  ∧ audio_buffer s' = last_bytes overlap window
  ∧ len (audio_buffer s') = overlap
  ∧ samples (audio_buffer s') = overlap_samples
  ∧ 4 * overlap_samples = target_window_samples
  ∧ (∀ (frame : bytes) (rest : list bytes),
       audio_queue s' = frame :: rest →
       audio_buffer (take_frame s') = last_bytes overlap window ++ frame).
Proof.
  apply (worker_iter_window silent_model "12:00:00" true full_buffer_state).
  - apply Z.leb_le. vm_compute. reflexivity.
  - reflexivity.
Defined.

(** C1, as stated, fails.  With the frames the capture callback
    delivers, 2048 bytes each, no window is handed over during the first
    46 turns, and the 47th turn hands over all 96256 bytes accumulated:
    48128 samples, not [target_window_samples] = 48000. *)
Lemma first_window_is_not_exact :
  let s46 := run silent_model (capture_and_iterate 46) initial in
  let s47 := run silent_model (capture_and_iterate 47) initial in
  windows s46 = []
  ∧ len (audio_buffer s46) = 94208
  ∧ map len (windows s47) = [96256]
  ∧ map samples (windows s47) = [48128]
  ∧ target_window_samples = 48000
  ∧ len (audio_buffer s47) = 24000.
Proof. intros s46 s47. split_and!; vm_compute; reflexivity. Qed.

Lemma worker_drains_witness :
  let s := stopped_with_one_second in
  ∃ s' : state,
    transcription_worker talking_model 16 (λ _, ("12:00:00", true)) 0 s
      = Some s'
    ∧ audio_queue s' = []
    ∧ consumed s' = consumed s ++ audio_queue s
    ∧ (∀ w, w ∈ asr_calls s' → w ∈ asr_calls s ∨ buffer_size ≤ len w)
    ∧ (len (audio_buffer s) + len (concat (audio_queue s)) < buffer_size →
       asr_calls s' = asr_calls s
       ∧ windows s' = windows s
       ∧ audio_buffer s' = audio_buffer s ++ concat (audio_queue s)).
Proof.
  apply (worker_drains talking_model (λ _, ("12:00:00", true)) 0 16
           stopped_with_one_second).
  - vm_compute. reflexivity.
  - apply Nat.leb_le. vm_compute. reflexivity.
Defined.

(** C2, as stated, fails.  Sixteen frames, 1.024 s of audio, are queued
    when the session is stopped.  The worker takes the sixteen frames and
    returns: 16384 samples are in its buffer, at least the 8000 of half a
    second and fewer than a window, and neither a window was handed over
    nor the engine called, nor anything written. *)
Lemma no_final_call_on_partial_audio :
  let s := stopped_with_one_second in
  let r :=
    transcription_worker talking_model 16 (λ _, ("12:00:00", true)) 0 s in
  is_recording s = false
  ∧ length (audio_queue s) = 16%nat
  ∧ audio_queue <$> r = Some []
  ∧ (λ s', samples (audio_buffer s')) <$> r = Some 16384
  ∧ sample_rate `div` 2 = 8000
  ∧ target_window_samples = 48000
  ∧ windows <$> r = Some []
  ∧ asr_calls <$> r = Some []
  ∧ output_file <$> r = Some [].
Proof. intros s r. split_and!; vm_compute; reflexivity. Qed.

(** ** The batch driver *)

Import Batch.

Lemma failures_app (l1 l2 : list (string * outcome string)) :
  failures (l1 ++ l2) = failures l1 ++ failures l2.
Proof. apply omap_app. Qed.

Lemma successes_app (l1 l2 : list (string * outcome string)) :
  successes (l1 ++ l2) = successes l1 ++ successes l2.
Proof. apply omap_app. Qed.

Lemma failures_none (outs : list (string * outcome string)) :
  (∀ j q o, outs !! j = Some (q, o) → ∃ f, o = Returned f) →
  failures outs = [] ∧ length (successes outs) = length outs.
Proof.
  induction outs as [|[q o] outs IH]; intros Hall; [done|].
  destruct (Hall 0%nat q o eq_refl) as [f ->].
  destruct IH as [IH1 IH2].
  { intros j q' o' Hl. by apply (Hall (S j) q' o'). }
  cbn. unfold failures, successes in *. by rewrite IH1, IH2.
Qed.

(** When exactly the attempt at position [k] raised, it is the only
    failure and all the others are successes. *)
Lemma failures_single (outs : list (string * outcome string)) :
  ∀ (k : nat) (p e : string),
    outs !! k = Some (p, Raised e) →
    (∀ j q o, j ≠ k → outs !! j = Some (q, o) → ∃ f, o = Returned f) →
    failures outs = [(p, e)]
    ∧ S (length (successes outs)) = length outs.
Proof.
  induction outs as [|[q o] outs IH]; intros k p e Hk Hothers; [done|].
  destruct k as [|k].
  - simplify_eq/=.
    destruct (failures_none outs) as [H1 H2].
    { intros j q' o' Hl. by apply (Hothers (S j) q' o'). }
    unfold failures, successes in *. cbn. by rewrite H1, H2.
  - destruct (Hothers 0%nat q o) as [f ->]; [done..|].
    destruct (IH k p e Hk) as [H1 H2].
    { intros j q' o' Hj Hl. apply (Hothers (S j) q' o'); [lia|done]. }
    unfold failures, successes in *. cbn. by rewrite H1, <- H2.
Qed.

Section DriverFacts.

Variable env : Type.
Variable process_mp4 : string → options → env → outcome string * env.
Variable path_name : string → string.
Variables seconds_between minutes_between : env → env → string.

Let one := process_one env process_mp4 path_name seconds_between.
Let loop := process_loop env process_mp4 path_name seconds_between.

Lemma process_one_spec (total : nat) (opts : options) (r : run_state env)
    (i : nat) (mp4_path : string) :
  ∃ o : outcome string,
    attempts env (one total opts r i mp4_path)
      = attempts env r ++ [(mp4_path, o)]
    ∧ failed_files (proc env (one total opts r i mp4_path))
      = failed_files (proc env r) ++ failures [(mp4_path, o)]
    ∧ processed_files (proc env (one total opts r i mp4_path))
      = processed_files (proc env r) ++ successes [(mp4_path, o)].
Proof.
  subst one. unfold process_one. cbn.
  destruct (process_mp4 mp4_path opts (outside env r)) as [[f|e] w]; cbn.
  - exists (Returned f). by rewrite app_nil_r.
  - exists (Raised e). by rewrite app_nil_r.
Qed.

(** The loop calls [process_mp4] once for each path, in order, whatever
    the outcomes, and files every outcome under success or failure. *)
Lemma process_loop_spec (total : nat) (opts : options) (rest : list string) :
  ∀ (r : run_state env) (i : nat),
    ∃ outs : list (string * outcome string),
      attempts env (loop total opts r i rest) = attempts env r ++ outs
      ∧ outs.*1 = rest
      ∧ failed_files (proc env (loop total opts r i rest))
        = failed_files (proc env r) ++ failures outs
      ∧ processed_files (proc env (loop total opts r i rest))
        = processed_files (proc env r) ++ successes outs.
Proof.
  induction rest as [|mp4_path rest IH]; intros r i.
  - exists []. by rewrite !app_nil_r.
  - subst loop. cbn [process_loop].
    destruct (process_one_spec total opts r i mp4_path)
      as (o & Ha & Hf & Hp).
    destruct (IH (one total opts r i mp4_path) (S i))
      as (outs & Ha' & Hfst & Hf' & Hp').
    exists ((mp4_path, o) :: outs). subst one. split_and!.
    + by rewrite Ha', Ha, <- app_assoc.
    + cbn. by rewrite Hfst.
    + rewrite Hf', Hf, <- app_assoc. f_equal.
      symmetry. apply (failures_app [(mp4_path, o)] outs).
    + rewrite Hp', Hp, <- app_assoc. f_equal.
      symmetry. apply (successes_app [(mp4_path, o)] outs).
Qed.

(** C6.  In a run of [process_files] on a processor just built, when the
    call of [process_mp4] at position [k] raised [e] and the calls at the
    other positions returned: [process_mp4] was called once for every
    path of the list, in order; the failed list holds the one entry of
    file [k] with [e]; all the others are in the processed list; and the
    summary, the last thing printed, counts 1 failure and ends with the
    failure section holding the one line of file [k] and its error. *)
Theorem process_files_isolates_failure (file_paths : list string)
    (opts : options) (w : env) (k : nat) (path_k e : string) :
  let r := process_files env process_mp4 path_name seconds_between
             minutes_between file_paths opts (fresh_run env w) in
  attempts env r !! k = Some (path_k, Raised e) →
  (∀ j p o, j ≠ k → attempts env r !! j = Some (p, o) →
            ∃ f, o = Returned f) →
  (attempts env r).*1 = file_paths
  ∧ file_paths !! k = Some path_k
  ∧ failed_files (proc env r) = [(path_k, e)]
  ∧ S (length (processed_files (proc env r))) = length file_paths
  ∧ "❌ 失敗: 1ファイル" ∈ console env r
  ∧ ∃ before : list string,
      console env r
      = before ++ [nl +:+ "【失敗したファイル】";
                   "  ❌ " +:+ path_name path_k +:+ ": " +:+ e].
Proof.
  intros r Hk Hothers. subst r. unfold process_files in *.
  cbv zeta in *.
  set (r0 := say env _ (fresh_run env w)) in *.
  destruct (process_loop_spec (length file_paths) opts file_paths r0 1)
    as (outs & Ha & Hfst & Hf & Hp).
  subst loop.
  set (r1 := process_loop env process_mp4 path_name seconds_between
               (length file_paths) opts r0 1 file_paths) in *.
  cbn [say attempts proc console] in *.
  change (attempts env r0) with (@nil (string * outcome string)) in Ha.
  change (failed_files (proc env r0)) with (@nil (string * string)) in Hf.
  change (processed_files (proc env r0)) with (@nil (string * string)) in Hp.
  rewrite app_nil_l in Ha, Hf, Hp. rewrite Ha in Hk, Hothers.
  destruct (failures_single outs k path_k e Hk Hothers) as [Hfail Hsucc].
  rewrite Ha, Hf, Hp, Hfail.
  split_and!.
  - done.
  - rewrite <- Hfst, list_lookup_fmap, Hk. done.
  - done.
  - rewrite Hsucc, <- Hfst. by rewrite length_fmap.
  - unfold print_summary. rewrite Hf, Hfail.
    apply elem_of_app. right. apply elem_of_app. left.
    cbn [length]. do 5 apply list_elem_of_further. by apply list_elem_of_here.
  - unfold print_summary. rewrite Hf, Hfail. cbn [map].
    rewrite !app_assoc. by eexists.
Qed.

End DriverFacts.

Lemma process_files_isolates_failure_witness :
  (attempts unit demo_run).*1 = demo_files
  ∧ demo_files !! 1%nat = Some "bad.mp4"
  ∧ failed_files (proc unit demo_run)
    = [("bad.mp4", "MoviePy error: failed to read the first frame")]
  ∧ S (length (processed_files (proc unit demo_run))) = length demo_files
  ∧ "❌ 失敗: 1ファイル" ∈ console unit demo_run
  ∧ ∃ before : list string,
      console unit demo_run
      = before ++ [nl +:+ "【失敗したファイル】";
                   "  ❌ " +:+ "bad.mp4" +:+ ": "
                     +:+ "MoviePy error: failed to read the first frame"].
Proof.
  apply (process_files_isolates_failure unit demo_process_mp4 (λ p, p)
           (λ _ _, "0.0") (λ _ _, "0.0") demo_files demo_options tt 1%nat
           "bad.mp4" "MoviePy error: failed to read the first frame").
  - vm_compute. reflexivity.
  - intros [|[|[|j]]] p o Hj Hl; vm_compute in Hl; simplify_eq; by eexists.
Defined.

(** * Further properties *)

(** ** The speaker heuristic *)

(** The counter after the test of the pause before [seg]. *)
Lemma assign_speakers_cons (min_pause : float) (prev : option segment)
    (cur : Z) (seg : segment) (rest : list segment) :
  assign_speakers min_pause prev cur (seg :: rest)
  = let cur' := match prev with
                | Some p => if long_pause min_pause p seg then cur + 1 else cur
                | None => cur
                end in
    set_speaker cur' seg :: assign_speakers min_pause (Some seg) cur' rest.
Proof. done. Qed.

Lemma assign_speakers_fields (min_pause : float) (rest : list segment) :
  ∀ (prev : option segment) (cur : Z),
    Forall2 (λ s o, start o = start s ∧ end_ o = end_ s ∧ text o = text s)
      rest (assign_speakers min_pause prev cur rest).
Proof.
  induction rest as [|s rest IH]; intros prev cur; [constructor|].
  rewrite assign_speakers_cons. cbv zeta. constructor; [done|apply IH].
Qed.

(** [detect_speakers] copies the start, the end and the text of every
    segment unchanged, in order; only the speaker key is set. *)
Theorem detect_speakers_keeps_fields (segments : list segment)
    (min_pause : float) :
  Forall2 (λ s o, start o = start s ∧ end_ o = end_ s ∧ text o = text s)
    segments (detect_speakers segments min_pause).
Proof. rewrite detect_speakers_assign. apply assign_speakers_fields. Qed.

Lemma assign_speakers_step (min_pause : float) (rest : list segment) :
  ∀ (prev : option segment) (cur : Z) (i : nat) (p q : segment),
    rest !! i = Some p →
    rest !! S i = Some q →
    ∃ a : Z,
      speaker <$> assign_speakers min_pause prev cur rest !! i
        = Some (Some a)
      ∧ speaker <$> assign_speakers min_pause prev cur rest !! S i
        = Some (Some (if long_pause min_pause p q then a + 1 else a)).
Proof.
  induction rest as [|s rest IH]; intros prev cur i p q Hp Hq; [done|].
  rewrite assign_speakers_cons. cbv zeta.
  destruct i as [|i].
  - destruct rest as [|s' rest]; [done|]. simplify_eq/=.
    eexists. split; reflexivity.
  - cbn [lookup list_lookup] in Hp, Hq |- *. by apply IH.
Qed.

(** Between two neighbouring segments the speaker id goes up by one when
    the pause from the end of the first to the start of the second is at
    least [min_pause], and stays the same otherwise. *)
Theorem detect_speakers_step (segments : list segment) (min_pause : float)
    (i : nat) (p q : segment) :
  segments !! i = Some p →
  segments !! S i = Some q →
  ∃ a : Z,
    speaker <$> detect_speakers segments min_pause !! i = Some (Some a)
    ∧ speaker <$> detect_speakers segments min_pause !! S i
      = Some (Some (if long_pause min_pause p q then a + 1 else a)).
Proof. rewrite detect_speakers_assign. apply assign_speakers_step. Qed.

Lemma detect_speakers_step_witness :
  let segments :=
    [ {| start := 0; end_ := 1; text := "a"; speaker := None |};
      {| start := 4; end_ := 5; text := "b"; speaker := None |} ] in
  ∃ a : Z,
    speaker <$> detect_speakers segments default_min_pause !! 0%nat
      = Some (Some a)
    ∧ speaker <$> detect_speakers segments default_min_pause !! 1%nat
      = Some (Some (if long_pause default_min_pause
                         {| start := 0; end_ := 1; text := "a";
                            speaker := None |}
                         {| start := 4; end_ := 5; text := "b";
                            speaker := None |}
                    then a + 1 else a)).
Proof.
  intros segments.
  apply (detect_speakers_step segments default_min_pause 0); reflexivity.
Defined.

Lemma assign_speakers_again (min_pause : float) (rest : list segment) :
  ∀ (p1 p2 p3 : option segment) (cur cur0 : Z),
    end_ <$> p1 = end_ <$> p2 →
    assign_speakers min_pause p1 cur
      (assign_speakers min_pause p3 cur0 rest)
    = assign_speakers min_pause p2 cur rest.
Proof.
  induction rest as [|s rest IH]; intros p1 p2 p3 cur cur0 Hend; [done|].
  rewrite (assign_speakers_cons min_pause p3), (assign_speakers_cons _ p2).
  cbv zeta. rewrite assign_speakers_cons. cbv zeta.
  set (c0 := match p3 with
             | Some p => if long_pause min_pause p s then cur0 + 1 else cur0
             | None => cur0
             end).
  assert (Hc : match p1 with
               | Some p =>
                   if long_pause min_pause p (set_speaker c0 s)
                   then cur + 1 else cur
               | None => cur
               end
             = match p2 with
               | Some p => if long_pause min_pause p s then cur + 1 else cur
               | None => cur
               end).
  { destruct p1 as [a|], p2 as [b|]; simplify_eq/=; [|done].
    unfold long_pause. cbn. by rewrite Hend. }
  rewrite Hc. f_equal. by apply IH.
Qed.

(** Labelling a labelled list again changes nothing: the ids depend on
    the times only, and earlier ids are overwritten. *)
Theorem detect_speakers_idempotent (segments : list segment)
    (min_pause : float) :
  detect_speakers (detect_speakers segments min_pause) min_pause
  = detect_speakers segments min_pause.
Proof.
  rewrite !detect_speakers_assign. by apply assign_speakers_again.
Qed.

Lemma assign_speakers_app (min_pause : float) (l1 l2 : list segment) :
  ∀ (prev : option segment) (cur : Z),
    ∃ (prev' : option segment) (cur' : Z),
      assign_speakers min_pause prev cur (l1 ++ l2)
      = assign_speakers min_pause prev cur l1
          ++ assign_speakers min_pause prev' cur' l2.
Proof.
  induction l1 as [|s l1 IH]; intros prev cur.
  - by exists prev, cur.
  - cbn [app]. rewrite !assign_speakers_cons. cbv zeta.
    edestruct IH as (prev' & cur' & ->). by exists prev', cur'.
Qed.

(** The labels of the first segments do not depend on the segments that
    follow: labelling a list extended at the end extends the labelling. *)
Theorem detect_speakers_prefix (l1 l2 : list segment) (min_pause : float) :
  take (length l1) (detect_speakers (l1 ++ l2) min_pause)
  = detect_speakers l1 min_pause.
Proof.
  rewrite !detect_speakers_assign.
  destruct (assign_speakers_app min_pause l1 l2 None 1)
    as (prev' & cur' & ->).
  rewrite take_app_length'; [done|].
  symmetry. apply assign_speakers_length.
Qed.

Lemma assign_speakers_upper (min_pause : float) (rest : list segment) :
  ∀ (prev : option segment) (cur : Z),
    Forall (λ o, ∃ v, speaker o = Some v
                      ∧ v ≤ cur + match prev with Some _ => 1 | None => 0 end
                              + Z.of_nat (length rest) - 1)
      (assign_speakers min_pause prev cur rest).
Proof.
  induction rest as [|s rest IH]; intros prev cur; [constructor|].
  rewrite assign_speakers_cons. cbv zeta.
  set (cur' := match prev with
               | Some p => if long_pause min_pause p s then cur + 1 else cur
               | None => cur
               end).
  assert (Hle : cur' ≤ cur + match prev with Some _ => 1 | None => 0 end).
  { subst cur'. destruct prev as [p|]; [|lia].
    destruct (long_pause min_pause p s); lia. }
  constructor.
  - exists cur'. split; [done|]. cbn [length]. lia.
  - eapply Forall_impl; [apply (IH (Some s) cur')|].
    intros o (v & Hv & Hb). exists v. split; [done|]. cbn [length]. lia.
Qed.

Lemma max_list_sorted (l : list Z) :
  ∀ x : Z, StronglySorted Z.le (x :: l) → max_list x l = default x (last l).
Proof.
  induction l as [|y l IH]; intros x Hs; [done|].
  inversion Hs as [|? ? Hs' Hall]; subst.
  inversion Hall as [|? ? Hxy _]; subst.
  unfold max_list in *. cbn [foldl]. rewrite Z.max_r by done.
  rewrite (IH y Hs'). destruct l as [|z l]; [done|].
  rewrite last_cons_cons.
  destruct (last (z :: l)) eqn:E; [done|]. by apply last_None in E.
Qed.

(** The speaker count of the statistics block, the maximum of the ids
    computed on line 225, is the id of the last segment, and it lies
    between 1 and the number of segments; when the statistics are written
    to the end, that is the number in the line [推定話者数]. *)
Theorem speaker_count_is_last_id (segments : list segment)
    (min_pause : float) :
  segments ≠ [] →
  let labelled := detect_speakers segments min_pause in
  ∃ k : Z,
    last labelled ≫= speaker = Some k
    ∧ match map (λ s, default 1 (speaker s)) labelled with
      | x :: l => max_list x l
      | [] => 1
      end = k
    ∧ 1 ≤ k ≤ Z.of_nat (length segments)
    ∧ ∀ (whole_seconds : float → outcome Z) (full_text : string),
        (write_statistics whole_seconds true labelled full_text).2
          = Returned tt →
        Write ("推定話者数: " +:+ pretty k +:+ nl)
          ∈ (write_statistics whole_seconds true labelled full_text).1.
Proof.
  intros Hne labelled. subst labelled. rewrite detect_speakers_assign.
  destruct (assign_speakers_ids min_pause segments None 1)
    as (ids & Hids & Hge & Hsorted & Hhead).
  pose proof (assign_speakers_upper min_pause segments None 1) as Hupper.
  set (out := assign_speakers min_pause None 1 segments) in *.
  assert (Hdef : map (λ s, default 1 (speaker s)) out = ids).
  { unfold speaker_ids in Hids. clear -Hids. revert ids Hids.
    induction out as [|o out IH]; intros [|v ids] Hids; simplify_eq/=;
      [done|]. f_equal; [by rewrite H|by apply IH]. }
  assert (Hlen : length ids = length segments).
  { rewrite <- Hdef, length_map. apply assign_speakers_length. }
  destruct ids as [|x l].
  { destruct segments; [done|discriminate Hlen]. }
  set (k := default x (last l)).
  assert (Hlastids : last (x :: l) = Some k).
  { subst k. destruct l as [|y l] using rev_ind; [done|].
    by rewrite last_cons, last_snoc. }
  assert (Hlast : last out ≫= speaker = Some k).
  { assert (Hl : last (speaker_ids out) = Some (Some k)).
    { rewrite Hids, fmap_last, Hlastids. done. }
    unfold speaker_ids in Hl. rewrite fmap_last in Hl.
    destruct (last out) as [o|]; [|done]. simpl in Hl |- *. congruence. }
  assert (Hmax : max_list x l = k) by (by apply max_list_sorted).
  assert (Hbound : 1 ≤ k ≤ Z.of_nat (length segments)).
  { split.
    - rewrite Forall_forall in Hge. apply Hge.
      by apply last_Some_elem_of.
    - destruct (last out) as [o|] eqn:Ho; [|done]. simpl in Hlast.
      rewrite Forall_forall in Hupper.
      destruct (Hupper o) as (v & Hv & Hb); [by apply last_Some_elem_of|].
      unfold out in Hb. rewrite Hlast in Hv. simplify_eq. lia. }
  exists k. rewrite Hdef. split_and!; try done; try lia.
  intros whole_seconds full_text Hret.
  unfold write_statistics in *. rewrite Hdef in *.
  destruct (format_timestamp whole_seconds _) as [total|e]; [|done].
  rewrite Hmax. unfold lift, f_write.
  rewrite !script_bind_returned. cbn [fst snd app].
  do 4 apply list_elem_of_further. apply list_elem_of_here.
Qed.

Lemma speaker_count_is_last_id_witness :
  let segments :=
    [ {| start := 0; end_ := 1; text := "a"; speaker := None |};
      {| start := 4; end_ := 5; text := "b"; speaker := None |} ] in
  let labelled := detect_speakers segments default_min_pause in
  ∃ k : Z,
    last labelled ≫= speaker = Some k
    ∧ match map (λ s, default 1 (speaker s)) labelled with
      | x :: l => max_list x l
      | [] => 1
      end = k
    ∧ 1 ≤ k ≤ Z.of_nat (length segments)
    ∧ ∀ (whole_seconds : float → outcome Z) (full_text : string),
        (write_statistics whole_seconds true labelled full_text).2
          = Returned tt →
        Write ("推定話者数: " +:+ pretty k +:+ nl)
          ∈ (write_statistics whole_seconds true labelled full_text).1.
Proof.
  intros segments.
  apply (speaker_count_is_last_id segments default_min_pause). discriminate.
Defined.

(** ** Timestamps *)

Lemma fmt_02d_two_digits (n : Z) :
  0 ≤ n < 100 → String.length (fmt_02d n) = 2%nat.
Proof.
  intros Hn.
  assert (H : Forall (λ n, String.length (fmt_02d n) = 2%nat) (seqZ 0 100)).
  { apply (bool_decide_unpack _). vm_compute. exact I. }
  rewrite Forall_forall in H. apply H, elem_of_seqZ. lia.
Qed.

Lemma fmt_02d_inj (n m : Z) :
  0 ≤ n < 100 → 0 ≤ m < 100 → fmt_02d n = fmt_02d m → n = m.
Proof.
  intros Hn Hm.
  assert (H : Forall (λ n, Forall (λ m, fmt_02d n = fmt_02d m → n = m)
                             (seqZ 0 100)) (seqZ 0 100)).
  { apply (bool_decide_unpack _). vm_compute. exact I. }
  rewrite Forall_forall in H.
  specialize (H n). rewrite Forall_forall in H.
  apply H; apply elem_of_seqZ; lia.
Qed.

Lemma str_length_app (a b : string) :
  String.length (a +:+ b) = (String.length a + String.length b)%nat.
Proof.
  induction a as [|x a IH]; [done|].
  change (S (String.length (a +:+ b))
          = S (String.length a + String.length b)). by rewrite IH.
Qed.

Lemma str_app_inj_length (a1 a2 b1 b2 : string) :
  String.length a1 = String.length a2 →
  a1 +:+ b1 = a2 +:+ b2 → a1 = a2 ∧ b1 = b2.
Proof.
  revert a2. induction a1 as [|x a1 IH]; intros [|y a2] Hlen Heq;
    try discriminate Hlen; [done|].
  change (String x (a1 +:+ b1) = String y (a2 +:+ b2)) in Heq.
  injection Heq as -> Heq. injection Hlen as Hlen.
  destruct (IH a2 Hlen Heq) as [-> ->]. done.
Qed.

Section Timestamps.

Variable whole_seconds : float → outcome Z.

(** [seconds] is a float that [timedelta] turns into [z] whole seconds,
    or the int [z]. *)
Let whole (seconds : pynum) (z : Z) : Prop :=
  match seconds with
  | PyInt z' => z' = z
  | PyFloat x => whole_seconds x = Returned z
  end.

Lemma format_timestamp_int (z : Z) :
  0 ≤ z < 360000 →
  ∃ (h m s : Z) (t : string),
    format_timestamp whole_seconds (PyInt z) = Returned t
    ∧ t = fmt_02d h +:+ ":" +:+ fmt_02d m +:+ ":" +:+ fmt_02d s
    ∧ String.length t = 8%nat
    ∧ 0 ≤ h < 100 ∧ 0 ≤ m < 60 ∧ 0 ≤ s < 60
    ∧ z = 3600 * h + 60 * m + s.
Proof.
  intros Hz. unfold format_timestamp, whole_seconds_int.
  assert (Hd : 0 ≤ z `div` 86400 ≤ 5).
  { split; [apply Z.div_pos; lia|].
    apply Z.div_le_upper_bound; lia. }
  replace ((-999999999 <=? z `div` 86400) && (z `div` 86400 <=? 999999999))
    with true by (symmetry; apply andb_true_iff; split; apply Z.leb_le; lia).
  set (h := z `div` 3600). set (r := z `mod` 3600).
  set (m := r `div` 60). set (s := r `mod` 60).
  assert (Hr : 0 ≤ r < 3600) by (apply Z.mod_pos_bound; lia).
  assert (Hh : 0 ≤ h < 100).
  { split; [apply Z.div_pos; lia|]. apply Z.div_lt_upper_bound; lia. }
  assert (Hm : 0 ≤ m < 60).
  { split; [apply Z.div_pos; lia|]. apply Z.div_lt_upper_bound; lia. }
  assert (Hs : 0 ≤ s < 60) by (apply Z.mod_pos_bound; lia).
  exists h, m, s, (fmt_02d h +:+ ":" +:+ fmt_02d m +:+ ":" +:+ fmt_02d s).
  split_and!; try done; try lia.
  - rewrite !str_length_app, !fmt_02d_two_digits by lia. done.
  - pose proof (Z.div_mod z 3600 ltac:(lia)) as H1.
    pose proof (Z.div_mod r 60 ltac:(lia)) as H2.
    fold h r in H1. fold m s in H2. lia.
Qed.

Lemma format_timestamp_whole (seconds : pynum) (z : Z) :
  whole seconds z → 0 ≤ z < 360000 →
  format_timestamp whole_seconds seconds
  = format_timestamp whole_seconds (PyInt z).
Proof.
  intros Hw Hz. destruct seconds as [z'|x]; cbn in Hw; [by subst|].
  unfold format_timestamp. rewrite Hw. unfold whole_seconds_int.
  assert (Hd : 0 ≤ z `div` 86400 ≤ 5).
  { split; [apply Z.div_pos; lia|].
    apply Z.div_le_upper_bound; lia. }
  by replace ((-999999999 <=? z `div` 86400)
              && (z `div` 86400 <=? 999999999))
    with true by (symmetry; apply andb_true_iff; split; apply Z.leb_le; lia).
Qed.

(** For a time of [z] whole seconds, below one hundred hours,
    [format_timestamp] returns the eight characters [HH:MM:SS], with
    minutes and seconds below 60 and [3600 HH + 60 MM + SS = z]. *)
Theorem format_timestamp_fixed_width (seconds : pynum) (z : Z) :
  whole seconds z →
  0 ≤ z < 360000 →
  ∃ (h m s : Z) (t : string),
    format_timestamp whole_seconds seconds = Returned t
    ∧ t = fmt_02d h +:+ ":" +:+ fmt_02d m +:+ ":" +:+ fmt_02d s
    ∧ String.length t = 8%nat
    ∧ 0 ≤ h < 100 ∧ 0 ≤ m < 60 ∧ 0 ≤ s < 60
    ∧ z = 3600 * h + 60 * m + s.
Proof.
  intros Hw Hz. rewrite (format_timestamp_whole seconds z Hw Hz).
  by apply format_timestamp_int.
Qed.

(** Below one hundred hours the timestamp determines the number of whole
    seconds: two times that differ in their whole seconds are never
    printed alike. *)
Theorem format_timestamp_injective (a b : pynum) (z1 z2 : Z) :
  whole a z1 → whole b z2 →
  0 ≤ z1 < 360000 → 0 ≤ z2 < 360000 →
  format_timestamp whole_seconds a = format_timestamp whole_seconds b →
  z1 = z2.
Proof.
  intros Ha Hb H1 H2 Heq.
  rewrite (format_timestamp_whole a z1 Ha H1),
    (format_timestamp_whole b z2 Hb H2) in Heq.
  destruct (format_timestamp_int z1 H1)
    as (h1 & m1 & s1 & t1 & Ht1 & -> & _ & Hh1 & Hm1 & Hs1 & ->).
  destruct (format_timestamp_int z2 H2)
    as (h2 & m2 & s2 & t2 & Ht2 & -> & _ & Hh2 & Hm2 & Hs2 & ->).
  rewrite Ht1, Ht2 in Heq. injection Heq as Heq.
  apply str_app_inj_length in Heq as [Hh Heq];
    [|by rewrite !fmt_02d_two_digits by lia].
  apply (str_app_inj_length ":" ":") in Heq as [_ Heq]; [|done].
  apply str_app_inj_length in Heq as [Hm Heq];
    [|by rewrite !fmt_02d_two_digits by lia].
  apply (str_app_inj_length ":" ":") in Heq as [_ Hs]; [|done].
  apply fmt_02d_inj in Hh; [|lia..].
  apply fmt_02d_inj in Hm; [|lia..].
  apply fmt_02d_inj in Hs; [|lia..].
  by subst.
Qed.

End Timestamps.

Lemma format_timestamp_fixed_width_witness :
  ∃ (h m s : Z) (t : string),
    format_timestamp whole_seconds_01 (PyFloat 1) = Returned t
    ∧ t = fmt_02d h +:+ ":" +:+ fmt_02d m +:+ ":" +:+ fmt_02d s
    ∧ String.length t = 8%nat
    ∧ 0 ≤ h < 100 ∧ 0 ≤ m < 60 ∧ 0 ≤ s < 60
    ∧ 1 = 3600 * h + 60 * m + s.
Proof.
  apply (format_timestamp_fixed_width whole_seconds_01 (PyFloat 1) 1);
    [reflexivity | lia].
Defined.

Lemma format_timestamp_injective_witness :
  format_timestamp whole_seconds_01 (PyFloat 1)
    = format_timestamp whole_seconds_01 (PyInt 1)
  ∧ 1 = 1.
Proof.
  split; [reflexivity|].
  apply (format_timestamp_injective whole_seconds_01 (PyFloat 1) (PyInt 1)
           1 1); [reflexivity | reflexivity | lia | lia | reflexivity].
Defined.

(** ** The report, line by line *)

Section DetailLines.

Variable whole_seconds : float → outcome Z.

Lemma write_segment_cases (include_timestamps include_speakers : bool)
    (seg : segment) :
  match format_timestamp whole_seconds (PyFloat (start seg)),
        format_timestamp whole_seconds (PyFloat (end_ seg)) with
  | Returned st, Returned et =>
      write_segment whole_seconds include_timestamps include_speakers seg
      = ([Write (detail_line include_timestamps include_speakers st et seg
                   +:+ nl);
          Print (detail_line include_timestamps include_speakers st et seg)],
         Returned tt)
  | Returned _, Raised e | Raised e, _ =>
      write_segment whole_seconds include_timestamps include_speakers seg
      = ([], Raised e)
  end.
Proof.
  unfold write_segment.
  destruct (format_timestamp whole_seconds (PyFloat (start seg)))
    as [st|e]; [|done].
  destruct (format_timestamp whole_seconds (PyFloat (end_ seg)))
    as [et|e]; done.
Qed.

(** The detail block is written segment by segment, in order, one line
    each.  When every timestamp can be converted there is a line for
    every segment.  When the conversion of a start or an end raises, the
    lines of the segments before that one have been written, none for it
    or for those after it, and the error is the one of that conversion. *)
Theorem write_segments_lines (include_timestamps include_speakers : bool)
    (segments : list segment) :
  let run :=
    write_segments whole_seconds include_timestamps include_speakers
      segments in
  ∃ k : nat,
    Forall2
      (λ seg line,
         ∃ st et : string,
           format_timestamp whole_seconds (PyFloat (start seg)) = Returned st
           ∧ format_timestamp whole_seconds (PyFloat (end_ seg)) = Returned et
           ∧ line = detail_line include_timestamps include_speakers st et seg
                      +:+ nl)
      (take k segments) (written run.1)
    ∧ match run.2 with
      | Returned _ => k = length segments
      | Raised e =>
          ∃ seg, segments !! k = Some seg
                 ∧ (format_timestamp whole_seconds (PyFloat (start seg))
                      = Raised e
                    ∨ format_timestamp whole_seconds (PyFloat (end_ seg))
                      = Raised e)
      end.
Proof.
  induction segments as [|seg rest IH]; cbv zeta in *.
  { exists 0%nat. split; [constructor|done]. }
  cbn [write_segments].
  pose proof (write_segment_cases include_timestamps include_speakers seg)
    as Hseg.
  destruct (format_timestamp whole_seconds (PyFloat (start seg)))
    as [st|e] eqn:Hst.
  - destruct (format_timestamp whole_seconds (PyFloat (end_ seg)))
      as [et|e] eqn:Het.
    + rewrite Hseg, script_bind_returned.
      destruct IH as (k & Hlines & Hend).
      exists (S k). cbn [fst snd take]. split.
      * change (written (?a :: ?b :: ?l)) with
          ((detail_line include_timestamps include_speakers st et seg +:+ nl)
             :: written l).
        constructor; [|done]. by exists st, et.
      * destruct (write_segments _ _ _ rest).2; [by rewrite Hend|done].
    + rewrite Hseg. exists 0%nat. split; [constructor|].
      exists seg. split; [done|]. by right.
  - rewrite Hseg. exists 0%nat. split; [constructor|].
    exists seg. split; [done|]. by left.
Qed.

End DetailLines.

(** ** What [save_transcript] logs *)

Lemma perform_error_log (path : string) (acts : list action) :
  ∀ w : world, Mp4.error_log (perform path acts w).2 = Mp4.error_log w.
Proof.
  induction acts as [|[s|s] acts IH]; intros w; [done| |].
  - cbn [perform]. destruct (write_fault w) as [[[|n] e]|]; [done|..];
      by rewrite IH.
  - cbn [perform]. by rewrite IH.
Qed.

Lemma with_open_w_error_log {A} (path : string) (body : script A)
    (w : world) :
  Mp4.error_log (with_open_w path body w).2 = Mp4.error_log w.
Proof.
  unfold with_open_w. destruct (open_fault w); [done|].
  pose proof (perform_error_log path body.1
                (set_disk (<[path := ""]> (disk w)) w)) as H.
  destruct (perform path body.1 _) as [[[]|e] w']; exact H.
Qed.

(** [save_transcript] writes to the error log exactly when it raises:
    one entry, carrying the exception; when it returns, the log is as
    before and the last line printed names the file written. *)
Theorem save_transcript_logging (model_size output_dir : string)
    (path_stem : string → string) (os_path_join : string → string → string)
    (now_stamp now_text : string) (whole_seconds : float → outcome Z)
    (result : whisper_result) (mp4_path : string)
    (include_speakers include_timestamps : bool) (w : world) :
  let r := save_transcript model_size output_dir path_stem os_path_join
             now_stamp now_text whole_seconds result mp4_path
             include_speakers include_timestamps w in
  match r.1 with
  | Returned p =>
      Mp4.error_log r.2 = Mp4.error_log w
      ∧ last (stdout r.2)
        = Some (nl +:+ "✅ 文字起こし結果を保存しました: " +:+ p)
  | Raised e =>
      Mp4.error_log r.2 = Mp4.error_log w ++ ["ファイル保存エラー: " +:+ e]
  end.
Proof.
  cbv zeta. unfold save_transcript.
  pose proof (with_open_w_error_log
                (transcript_path output_dir path_stem os_path_join now_stamp
                   mp4_path)
                (report_body model_size now_text whole_seconds result
                   mp4_path include_speakers include_timestamps) w) as Hlog.
  destruct (with_open_w _ _ w) as [[[]|e] w']; cbn in Hlog |- *.
  - split; [done|]. by rewrite last_snoc.
  - by rewrite Hlog.
Qed.

(** ** One video from file to report *)

Import Pipeline.

Section PipelineFacts.

Variables (model_size output_dir : string).
Variable path_stem : string → string.
Variable os_path_join : string → string → string.
Variables (now_stamp now_text : string).
Variable whole_seconds : float → outcome Z.
Variable tempdir : string.
Variable moviepy_write_audio : string → string → world → outcome unit * world.
Variable whisper_transcribe :
  string → string → world → outcome whisper_result * world.

Let process (remove_fault : string → option string) :=
  process_mp4 model_size output_dir path_stem os_path_join now_stamp
    now_text whole_seconds tempdir moviepy_write_audio whisper_transcribe
    remove_fault.
Let audio_of (mp4_path : string) : string :=
  os_path_join tempdir (path_stem mp4_path +:+ "_audio.wav").

Lemma cleanup_outcome (remove_fault : string → option string)
    (audio_path : string) (w : world) :
  audio_path ≠ "" → remove_fault audio_path = None →
  disk (cleanup remove_fault (Some audio_path) false w) !! audio_path = None.
Proof.
  intros Hne Hrm. unfold cleanup. rewrite Hrm.
  rewrite bool_decide_eq_false_2 by done. cbn [negb andb].
  unfold path_exists. case_bool_decide as Hex; cbn.
  - by rewrite lookup_delete_eq.
  - destruct (disk w !! audio_path) eqn:E; [|done].
    exfalso. apply Hex. by eexists.
Qed.

(** When the sound track was extracted and [os.remove] does not fail,
    the temporary audio file is gone after [process_mp4] with
    [keep_audio=False], whether the transcription and the writing of the
    report returned or raised. *)
Theorem process_mp4_removes_audio (remove_fault : string → option string)
    (mp4_path language : string) (include_speakers include_timestamps : bool)
    (w w1 : world) :
  path_exists mp4_path w = true →
  moviepy_write_audio mp4_path (audio_of mp4_path)
    (add_stdout ("音声を抽出中: " +:+ mp4_path +:+ " -> "
                   +:+ audio_of mp4_path) w)
    = (Returned tt, w1) →
  audio_of mp4_path ≠ "" →
  remove_fault (audio_of mp4_path) = None →
  disk (process remove_fault mp4_path language include_speakers
          include_timestamps false w).2 !! audio_of mp4_path = None.
Proof.
  intros Hex Hmovie Hne Hrm. subst process. unfold process_mp4.
  rewrite Hex. cbn [negb]. unfold extract_audio_from_mp4.
  fold (audio_of mp4_path). rewrite Hmovie.
  destruct (transcribe_with_timestamps whisper_transcribe (audio_of mp4_path)
              language _) as [[result|e] w2].
  - destruct (save_transcript _ _ _ _ _ _ _ result mp4_path _ _ w2)
      as [r w3]. by apply cleanup_outcome.
  - by apply cleanup_outcome.
Qed.

Lemma cleanup_keeps (remove_fault : string → option string)
    (audio_path : option string) (keep_audio : bool) (w : world)
    (p : string) :
  Some p ≠ audio_path →
  disk (cleanup remove_fault audio_path keep_audio w) !! p = disk w !! p.
Proof.
  intros Hp. unfold cleanup. destruct audio_path as [a|]; [|done].
  destruct (negb (bool_decide (a = "")) && path_exists a w && negb keep_audio);
    [|done].
  destruct (remove_fault a); [done|]. cbn.
  rewrite lookup_delete_ne; [done|congruence].
Qed.

(** Whether [os.remove] fails has no influence on what [process_mp4]
    returns or raises: a failure to delete the temporary file is logged
    and nothing more. *)
Theorem process_mp4_ignores_remove_failure
    (remove_fault : string → option string) (mp4_path language : string)
    (include_speakers include_timestamps keep_audio : bool) (w : world) :
  (process remove_fault mp4_path language include_speakers
     include_timestamps keep_audio w).1
  = (process (λ _, None) mp4_path language include_speakers
       include_timestamps keep_audio w).1.
Proof.
  subst process. unfold process_mp4.
  destruct (negb (path_exists mp4_path w)); [done|].
  destruct (extract_audio_from_mp4 _ _ _ _ mp4_path None w)
    as [[audio_path|e] w1]; [|done].
  destruct (transcribe_with_timestamps _ audio_path language w1)
    as [[result|e] w2]; [|done].
  by destruct (save_transcript _ _ _ _ _ _ _ result mp4_path _ _ w2).
Qed.

(** When [process_mp4] returns, it returns the path of the report, and
    the file there (unless it is the temporary audio file itself) holds
    the whole report of what Whisper returned for the extracted audio. *)
Theorem process_mp4_returns_report (remove_fault : string → option string)
    (mp4_path language : string)
    (include_speakers include_timestamps keep_audio : bool)
    (w w' : world) (p : string) :
  process remove_fault mp4_path language include_speakers
    include_timestamps keep_audio w = (Returned p, w') →
  p = transcript_path output_dir path_stem os_path_join now_stamp mp4_path
  ∧ path_exists mp4_path w = true
  ∧ ∃ (result : whisper_result) (w1 w2 : world),
      whisper_transcribe (audio_of mp4_path) language w1
        = (Returned result, w2)
      ∧ (p ≠ audio_of mp4_path →
         disk w' !! p
         = Some (concat_str
                   (written
                      (report_body model_size now_text whole_seconds result
                         mp4_path include_speakers include_timestamps).1))).
Proof.
  subst process. unfold process_mp4.
  destruct (path_exists mp4_path w) eqn:Hex; cbn [negb]; [|done].
  unfold extract_audio_from_mp4. fold (audio_of mp4_path).
  destruct (moviepy_write_audio mp4_path (audio_of mp4_path) _)
    as [[[]|e] w1]; [|done].
  unfold transcribe_with_timestamps.
  destruct (whisper_transcribe (audio_of mp4_path) language _)
    as [[result|e] w2] eqn:Hw; [|done].
  destruct (save_transcript _ _ _ _ _ _ _ result mp4_path _ _ _)
    as [r w3] eqn:Hsave.
  intros [= -> <-].
  destruct (save_transcript_returned _ _ _ _ _ _ _ _ _ _ _ _ _ _ Hsave)
    as (-> & _ & Hfile).
  split; [done|]. split; [done|].
  eexists result, _, w2. split; [exact Hw|].
  intros Hp. rewrite <- Hfile.
  apply (cleanup_keeps remove_fault (Some (audio_of mp4_path)) keep_audio w3).
  congruence.
Qed.

End PipelineFacts.

Lemma process_mp4_removes_audio_witness :
  disk (demo_process_mp4 "talk.mp4" "ja" true true false talk_world).2
    !! "/tmp/talk_audio.wav" = None.
Proof.
  apply (process_mp4_removes_audio "base" "transcriptions" talk_stem
           join_slash "20240101_120000" "2024-01-01 12:00:00"
           whole_seconds_01 "/tmp" demo_moviepy demo_whisper (λ _, None)
           "talk.mp4" "ja" true true talk_world
           (demo_moviepy "talk.mp4" "/tmp/talk_audio.wav"
              (add_stdout ("音声を抽出中: " +:+ "talk.mp4" +:+ " -> "
                             +:+ "/tmp/talk_audio.wav") talk_world)).2).
  - vm_compute. reflexivity.
  - reflexivity.
  - discriminate.
  - reflexivity.
Defined.

Lemma process_mp4_returns_report_witness :
  let w' := (demo_process_mp4 "talk.mp4" "ja" true true false talk_world).2 in
  talk_path
    = transcript_path "transcriptions" talk_stem join_slash "20240101_120000"
        "talk.mp4"
  ∧ path_exists "talk.mp4" talk_world = true
  ∧ ∃ (result : whisper_result) (w1 w2 : world),
      demo_whisper (join_slash "/tmp" (talk_stem "talk.mp4" +:+ "_audio.wav"))
        "ja" w1 = (Returned result, w2)
      ∧ (talk_path
           ≠ join_slash "/tmp" (talk_stem "talk.mp4" +:+ "_audio.wav") →
         disk w' !! talk_path
         = Some (concat_str
                   (written
                      (report_body "base" "2024-01-01 12:00:00"
                         whole_seconds_01 result "talk.mp4" true true).1))).
Proof.
  intros w'.
  apply (process_mp4_returns_report "base" "transcriptions" talk_stem
           join_slash "20240101_120000" "2024-01-01 12:00:00"
           whole_seconds_01 "/tmp" demo_moviepy demo_whisper (λ _, None)
           "talk.mp4" "ja" true true false talk_world w' talk_path).
  vm_compute. reflexivity.
Defined.

(** ** The batch driver, further *)

Lemma failures_successes_length (outs : list (string * outcome string)) :
  (length (failures outs) + length (successes outs))%nat = length outs.
Proof.
  induction outs as [|[p [f|e]] outs IH]; [done|..];
    unfold failures, successes in *; cbn; lia.
Qed.

Section DriverAccounting.

Variable env : Type.
Variable process_mp4 : string → options → env → outcome string * env.
Variable path_name : string → string.
Variables seconds_between minutes_between : env → env → string.

Lemma process_files_attempts (file_paths : list string)
    (opts : options) (r : run_state env) :
  ∃ outs : list (string * outcome string),
    outs.*1 = file_paths
    ∧ attempts env
        (process_files env process_mp4 path_name seconds_between
           minutes_between file_paths opts r)
      = attempts env r ++ outs.
Proof.
  unfold process_files. cbv zeta.
  set (r0 := say env _ r).
  destruct (process_loop_spec env process_mp4 path_name seconds_between
              (length file_paths) opts file_paths r0 1)
    as (outs & Ha & Hfst & _).
  exists outs. by cbn [say attempts proc] in *.
Qed.

(** Whatever the outcomes and whatever the processor already holds,
    [process_files] calls [process_mp4] once for every path, in order;
    every path ends in exactly one of the two lists, after the entries
    that were there before, in the order of the calls. *)
Theorem process_files_accounting (file_paths : list string)
    (opts : options) (r : run_state env) :
  let r' := process_files env process_mp4 path_name seconds_between
              minutes_between file_paths opts r in
  ∃ outs : list (string * outcome string),
    outs.*1 = file_paths
    ∧ attempts env r' = attempts env r ++ outs
    ∧ failed_files (proc env r')
      = failed_files (proc env r) ++ failures outs
    ∧ processed_files (proc env r')
      = processed_files (proc env r) ++ successes outs
    ∧ (length (failures outs) + length (successes outs))%nat
      = length file_paths.
Proof.
  cbv zeta. unfold process_files. cbv zeta.
  set (r0 := say env _ r).
  destruct (process_loop_spec env process_mp4 path_name seconds_between
              (length file_paths) opts file_paths r0 1)
    as (outs & Ha & Hfst & Hf & Hp).
  exists outs. cbn [say attempts proc] in *.
  split_and!; try done.
  rewrite failures_successes_length, <- Hfst. by rewrite length_fmap.
Qed.

End DriverAccounting.

Section BatchOfMissing.

Variables (model_size output_dir : string).
Variable path_stem : string → string.
Variable os_path_join : string → string → string.
Variables (now_stamp now_text : string).
Variable whole_seconds : float → outcome Z.
Variable tempdir : string.
Variable moviepy_write_audio : string → string → world → outcome unit * world.
Variable whisper_transcribe :
  string → string → world → outcome whisper_result * world.
Variable remove_fault : string → option string.
Variable path_name : string → string.
Variables seconds_between minutes_between : world → world → string.

Let process_opts :=
  process_mp4_opts model_size output_dir path_stem os_path_join now_stamp
    now_text whole_seconds tempdir moviepy_write_audio whisper_transcribe
    remove_fault.

Lemma process_mp4_missing (mp4_path : string) (opts : options) (w : world) :
  disk w !! mp4_path = None →
  process_opts mp4_path opts w
  = (Raised ("MP4ファイルが見つかりません: " +:+ mp4_path), w).
Proof.
  intros Hmiss. subst process_opts. unfold process_mp4_opts, process_mp4.
  unfold path_exists. rewrite Hmiss.
  rewrite bool_decide_eq_false_2; [done|]. by intros [? ?].
Qed.

Lemma process_one_missing (total : nat) (opts : options)
    (r : run_state world) (i : nat) (p : string) :
  disk (outside world r) !! p = None →
  let r' := process_one world process_opts path_name seconds_between
              total opts r i p in
  outside world r' = outside world r
  ∧ processed_files (proc world r') = processed_files (proc world r)
  ∧ failed_files (proc world r')
    = failed_files (proc world r)
        ++ [(p, "MP4ファイルが見つかりません: " +:+ p)].
Proof.
  intros Hp. cbv zeta. unfold process_one. cbn [say outside].
  by rewrite (process_mp4_missing p opts (outside world r) Hp).
Qed.

Lemma process_loop_missing (total : nat) (opts : options)
    (rest : list string) :
  ∀ (r : run_state world) (i : nat),
    Forall (λ p, disk (outside world r) !! p = None) rest →
    let r' := process_loop world process_opts path_name seconds_between
                total opts r i rest in
    outside world r' = outside world r
    ∧ processed_files (proc world r') = processed_files (proc world r)
    ∧ failed_files (proc world r')
      = failed_files (proc world r)
          ++ ((λ p, (p, "MP4ファイルが見つかりません: " +:+ p)) <$> rest).
Proof.
  induction rest as [|p rest IH]; intros r i Hall; cbv zeta.
  { by rewrite app_nil_r. }
  apply Forall_cons in Hall as [Hp Hrest].
  cbn [process_loop].
  destruct (process_one_missing total opts r i p Hp) as (Ho1 & Hok1 & Hfail1).
  set (r1 := process_one world process_opts path_name seconds_between
               total opts r i p) in *.
  destruct (IH r1 (S i)) as (Ho & Hok & Hfail).
  { by rewrite Ho1. }
  rewrite Ho, Hok, Hfail, Ho1, Hok1, Hfail1.
  split_and!; try done. by rewrite <- app_assoc.
Qed.

(** A batch over paths none of which exists fails them all with the
    message of [process_mp4]'s first check, in order, processes nothing,
    and leaves the world as it was. *)
Theorem process_files_all_missing (file_paths : list string)
    (opts : options) (w : world) :
  Forall (λ p, disk w !! p = None) file_paths →
  let r := process_files world process_opts path_name seconds_between
             minutes_between file_paths opts (fresh_run world w) in
  processed_files (proc world r) = []
  ∧ failed_files (proc world r)
    = (λ p, (p, "MP4ファイルが見つかりません: " +:+ p)) <$> file_paths
  ∧ outside world r = w.
Proof.
  intros Hall. cbv zeta. unfold process_files. cbv zeta.
  set (r0 := say world _ (fresh_run world w)).
  destruct (process_loop_missing (length file_paths) opts file_paths r0 1)
    as (Ho & Hok & Hfail); [exact Hall|].
  cbn [say proc outside]. by rewrite Ho, Hok, Hfail.
Qed.

End BatchOfMissing.

Lemma process_files_all_missing_witness :
  let r :=
    process_files world
      (process_mp4_opts "base" "transcriptions" talk_stem join_slash
         "20240101_120000" "2024-01-01 12:00:00" whole_seconds_01 "/tmp"
         demo_moviepy demo_whisper (λ _, None))
      (λ p, p) (λ _ _, "0.0") (λ _ _, "0.0") ["a.mp4"; "b.mp4"]
      demo_options (fresh_run world talk_world) in
  processed_files (proc world r) = []
  ∧ failed_files (proc world r)
    = (λ p, (p, "MP4ファイルが見つかりません: " +:+ p)) <$> ["a.mp4"; "b.mp4"]
  ∧ outside world r = talk_world.
Proof.
  apply (process_files_all_missing "base" "transcriptions" talk_stem
           join_slash "20240101_120000" "2024-01-01 12:00:00"
           whole_seconds_01 "/tmp" demo_moviepy demo_whisper (λ _, None)
           (λ p, p) (λ _ _, "0.0") (λ _ _, "0.0") ["a.mp4"; "b.mp4"]
           demo_options talk_world).
  repeat constructor.
Defined.

(** ** The command line *)

Import Cli.

Lemma lower_ascii_y (c : ascii) :
  lower_ascii c = "y"%char → c = "y"%char ∨ c = "Y"%char.
Proof.
  destruct c as [[] [] [] [] [] [] [] []]; intros H; vm_compute in H;
    first [discriminate H | by left | by right].
Qed.

(** The answers [process_directory] takes for a yes. *)
Lemma lower_is_y (s : string) : lower s = "y" ↔ s = "y" ∨ s = "Y".
Proof.
  split.
  - destruct s as [|c [|c' s']]; cbn; intros H; try discriminate H.
    injection H as H. destruct (lower_ascii_y c H) as [-> | ->]; auto.
  - by intros [-> | ->].
Qed.

Section CommandFacts.

Variable env : Type.
Variable process_mp4 : string → options → env → outcome string * env.
Variable path_name : string → string.
Variables seconds_between minutes_between : env → env → string.
Variable os_path_join : string → string → string.
Variable glob : string → bool → env → list string.
Variable response : string.

Let directory_cmd :=
  process_directory env process_mp4 path_name seconds_between
    minutes_between os_path_join glob response.
Let main_cmd :=
  main env process_mp4 path_name seconds_between minutes_between
    os_path_join glob response.
Let find := find_mp4_files env os_path_join glob.

Lemma process_directory_with_recursive (directory : string)
    (kw : kwargs) (recursive : bool) (r : run_state env) :
  kw_recursive kw = Some recursive →
  let res := directory_cmd directory kw r in
  proc env res.2 = proc env r
  ∧ attempts env res.2 = attempts env r
  ∧ outside env res.2 = outside env r
  ∧ ((∃ e, res.1 = Raised e)
     ↔ find directory recursive (outside env r) ≠ []
       ∧ (response = "y" ∨ response = "Y")).
Proof.
  intros Hkw. cbv zeta. subst directory_cmd find.
  unfold process_directory. rewrite Hkw.
  change (default true (Some recursive)) with recursive. cbv zeta.
  destruct (find_mp4_files env os_path_join glob directory recursive
              (outside env r)) as [|f files] eqn:Hfind.
  { cbn [fst snd say proc attempts outside].
    split_and!; try done. split; [by intros [e ?]|by intros [? _]]. }
  case_bool_decide as Hyes; cbn [negb].
  - unfold bind_process_files. rewrite Hkw.
    cbn [fst snd say proc attempts outside].
    split_and!; try done. split; [|by eexists].
    intros _. split; [done|]. by apply lower_is_y.
  - cbn [fst snd say proc attempts outside].
    split_and!; try done. split; [by intros [e ?]|].
    intros [_ Hy]. by apply lower_is_y in Hy.
Qed.

(** Called with the keyword [recursive], [process_directory] processes
    no file: it returns when nothing is found or the answer is not a yes,
    and otherwise raises, because it hands the same keywords on to
    [process_files], which has no such parameter. *)
Theorem process_directory_recursive_keyword (directory : string)
    (kw : kwargs) (recursive : bool) (r : run_state env) :
  kw_recursive kw = Some recursive →
  let res := directory_cmd directory kw r in
  proc env res.2 = proc env r
  ∧ attempts env res.2 = attempts env r
  ∧ outside env res.2 = outside env r
  ∧ ((∃ e, res.1 = Raised e)
     ↔ find directory recursive (outside env r) ≠ []
       ∧ (response = "y" ∨ response = "Y")).
Proof. apply process_directory_with_recursive. Qed.

(** [main] with [--directory] always passes the keyword [recursive]: in
    that mode no file is ever processed, and the run ends with the
    [TypeError] as soon as files are found and the user says yes. *)
Theorem main_directory_never_processes (a : args) (directory : string)
    (r : run_state env) :
  arg_directory a = Some directory →
  directory ≠ "" →
  let res := main_cmd a r in
  proc env res.2 = proc env r
  ∧ attempts env res.2 = attempts env r
  ∧ outside env res.2 = outside env r
  ∧ ((∃ e, res.1 = Raised e)
     ↔ find directory (negb (arg_no_recursive a)) (outside env r) ≠ []
       ∧ (response = "y" ∨ response = "Y")).
Proof.
  intros Hdir Hne. cbv zeta. subst main_cmd. unfold main.
  rewrite Hdir. rewrite bool_decide_eq_false_2 by done. cbn [negb].
  match goal with
  | |- context [process_directory _ _ _ _ _ _ _ _ _ ?kw ?r0] =>
      pose proof (process_directory_with_recursive directory kw
                    (negb (arg_no_recursive a)) r0 eq_refl) as H
  end.
  exact H.
Qed.

(** Called without the keyword [recursive] and answered with a yes,
    [process_directory] calls [process_mp4] on the files [glob] found
    under the directory and below, each as often as [glob] lists it, in
    ascending order of their paths. *)
Theorem process_directory_sorted (directory : string) (kw : kwargs)
    (r : run_state env) :
  kw_recursive kw = None →
  response = "y" ∨ response = "Y" →
  ∃ outs : list (string * outcome string),
    attempts env (directory_cmd directory kw r).2
      = attempts env r ++ outs
    ∧ outs.*1 ≡ₚ glob (os_path_join (os_path_join directory "**") "*.mp4")
                   true (outside env r)
    ∧ StronglySorted String.le (outs.*1).
Proof.
  intros Hkw Hyes. apply lower_is_y in Hyes.
  subst directory_cmd. unfold process_directory. rewrite Hkw.
  change (default true (@None bool)) with true.
  cbv zeta. unfold find_mp4_files.
  set (found := glob _ true (outside env r)).
  pose proof (merge_sort_Permutation String.le found) as Hperm.
  pose proof (StronglySorted_merge_sort String.le found) as Hsorted.
  destruct (merge_sort String.le found) as [|f files] eqn:Hms.
  { exists []. cbn. rewrite app_nil_r. split_and!; [done|done|constructor]. }
  rewrite Hyes. rewrite bool_decide_eq_true_2 by done. cbn [negb].
  unfold bind_process_files. rewrite Hkw. cbn [snd].
  destruct (process_files_attempts env process_mp4 path_name
              seconds_between minutes_between (f :: files)
              {| language := default "ja" (kw_language kw);
                 include_speakers := default true (kw_include_speakers kw);
                 include_timestamps :=
                   default true (kw_include_timestamps kw);
                 keep_audio := default false (kw_keep_audio kw) |}
              (say env
                 (["📁 ディレクトリ: " +:+ directory;
                   "🔍 見つかったMP4ファイル: "
                     +:+ pretty (length (f :: files)) +:+ "個"]
                  ++ map (λ mp4_file, "  📹 " +:+ path_name mp4_file)
                       (f :: files)
                  ++ [nl +:+ pretty (length (f :: files))
                        +:+ "個のファイルを処理しますか？ (y/n): "]) r))
    as (outs & Hfst & Ha).
  exists outs. split; [exact Ha|]. rewrite Hfst. by split.
Qed.

End CommandFacts.

Lemma process_directory_recursive_keyword_witness :
  let kw :=
    {| kw_language := Some "ja"; kw_include_speakers := Some true;
       kw_include_timestamps := Some true; kw_keep_audio := Some false;
       kw_recursive := Some true |} in
  let r := fresh_run unit tt in
  let res := demo_directory "videos" kw r in
  proc unit res.2 = proc unit r
  ∧ attempts unit res.2 = attempts unit r
  ∧ outside unit res.2 = outside unit r
  ∧ ((∃ e, res.1 = Raised e)
     ↔ find_mp4_files unit join_slash demo_glob "videos" true
         (outside unit r) ≠ []
       ∧ ("Y" = "y" ∨ "Y" = "Y")).
Proof.
  intros kw r.
  apply (process_directory_recursive_keyword unit Batch.demo_process_mp4
           (λ p, p) (λ _ _, "0.0") (λ _ _, "0.0") join_slash demo_glob "Y"
           "videos" kw true r).
  reflexivity.
Defined.

Lemma main_directory_never_processes_witness :
  let r := fresh_run unit tt in
  let res := demo_main demo_args r in
  proc unit res.2 = proc unit r
  ∧ attempts unit res.2 = attempts unit r
  ∧ outside unit res.2 = outside unit r
  ∧ ((∃ e, res.1 = Raised e)
     ↔ find_mp4_files unit join_slash demo_glob "videos"
         (negb (arg_no_recursive demo_args)) (outside unit r) ≠ []
       ∧ ("Y" = "y" ∨ "Y" = "Y")).
Proof.
  intros r.
  apply (main_directory_never_processes unit Batch.demo_process_mp4
           (λ p, p) (λ _ _, "0.0") (λ _ _, "0.0") join_slash demo_glob "Y"
           demo_args "videos" r).
  - reflexivity.
  - discriminate.
Defined.

Lemma process_directory_sorted_witness :
  ∃ outs : list (string * outcome string),
    attempts unit (demo_directory "videos" demo_kwargs (fresh_run unit tt)).2
      = attempts unit (fresh_run unit tt) ++ outs
    ∧ outs.*1 ≡ₚ demo_glob (join_slash (join_slash "videos" "**") "*.mp4")
                   true (outside unit (fresh_run unit tt))
    ∧ StronglySorted String.le (outs.*1).
Proof.
  apply (process_directory_sorted unit Batch.demo_process_mp4 (λ p, p)
           (λ _ _, "0.0") (λ _ _, "0.0") join_slash demo_glob "Y" "videos"
           demo_kwargs (fresh_run unit tt)).
  - reflexivity.
  - by right.
Defined.

(** ** The streaming session *)

Import Session.

Section SessionFacts.

Variable model_transcribe : bytes → outcome string.

Let iter := worker_iter model_transcribe.
Let step1 := step model_transcribe.
Let go := run model_transcribe.

Lemma run_cons (e : event) (es : list event) (s : state) :
  go (e :: es) s = go es (step1 s e).
Proof. done. Qed.

Lemma step_is_recording (s : state) (e : event) :
  is_recording (step1 s e)
  = match e with Stop => false | _ => is_recording s end.
Proof.
  subst step1. destruct e as [d| |now ok]; cbn [step].
  - unfold audio_callback. by destruct (is_recording s) eqn:Hr.
  - done.
  - destruct (loop_condition s); [|done].
    by destruct (worker_iter_facts model_transcribe now ok s) as (-> & _).
Qed.

Lemma worker_iter_fifo (now : string) (ok : bool) (s : state) :
  consumed (iter now ok s) ++ audio_queue (iter now ok s)
  = consumed s ++ audio_queue s.
Proof.
  destruct (worker_iter_facts model_transcribe now ok s)
    as (_ & Hq & Hc & _).
  subst iter. rewrite Hq, Hc. unfold take_frame.
  destruct (audio_queue s) as [|d q]; [done|].
  cbn. by rewrite <- app_assoc.
Qed.

Lemma step_fifo (s : state) (e : event) :
  consumed (step1 s e) ++ audio_queue (step1 s e)
  = consumed s ++ audio_queue s ++ accepted (is_recording s) [e].
Proof.
  subst step1. destruct e as [d| |now ok]; cbn [step accepted].
  - unfold audio_callback. destruct (is_recording s) eqn:Hr; cbn;
      rewrite ?Hr; by rewrite ?app_nil_r.
  - by rewrite app_nil_r.
  - rewrite app_nil_r. destruct (loop_condition s); [|done].
    apply worker_iter_fifo.
Qed.

Lemma accepted_cons (recording : bool) (e : event) (es : list event) :
  accepted recording (e :: es)
  = accepted recording [e]
      ++ accepted (match e with Stop => false | _ => recording end) es.
Proof. destruct e as [d| |now ok]; cbn; [by destruct recording|done..]. Qed.

Lemma run_consumed_queue (es : list event) :
  ∀ s : state,
    consumed (go es s) ++ audio_queue (go es s)
    = consumed s ++ audio_queue s ++ accepted (is_recording s) es.
Proof.
  induction es as [|e es IH]; intros s.
  - cbn. by rewrite app_nil_r.
  - rewrite run_cons, IH, app_assoc, step_fifo, step_is_recording,
      (accepted_cons _ e es).
    by rewrite <- !app_assoc.
Qed.

(** No frame is lost, duplicated or reordered between the capture
    callback and the worker: at every moment the frames the worker has
    taken, followed by those still queued, are exactly the frames
    delivered while recording, in the order of their delivery. *)
Theorem run_fifo (es : list event) (s : state) :
  consumed (go es s) ++ audio_queue (go es s)
  = consumed s ++ audio_queue s ++ accepted (is_recording s) es.
Proof. apply run_consumed_queue. Qed.

Lemma worker_iter_keeps_recording (now : string) (ok : bool) (s : state) :
  is_recording (iter now ok s) = is_recording s.
Proof.
  subst iter.
  by destruct (worker_iter_facts model_transcribe now ok s) as (-> & _).
Qed.

(** As long as nobody clears [is_recording] the worker's loop does not
    end: left alone with the flag set it never returns, however many
    turns it is given. *)
Theorem worker_never_returns_while_recording (fuel : nat)
    (env : nat → string * bool) :
  ∀ (n : nat) (s : state),
    is_recording s = true →
    transcription_worker model_transcribe fuel env n s = None.
Proof.
  induction fuel as [|fuel IH]; intros n s Hrec;
    cbn [transcription_worker]; unfold loop_condition; rewrite Hrec;
    cbn [orb]; [done|].
  apply IH. fold iter. by rewrite worker_iter_keeps_recording.
Qed.

Lemma accepted_stopped (es : list event) : accepted false es = [].
Proof. induction es as [|[d| |now ok] es IH]; done. Qed.

Lemma step_stopped_queue (s : state) (e : event) :
  is_recording s = false →
  length (audio_queue (step1 s e))
  = (length (audio_queue s) - turns [e])%nat.
Proof.
  intros Hrec. subst step1. destruct e as [d| |now ok]; cbn [step turns].
  - rewrite audio_callback_stopped by done. lia.
  - cbn. lia.
  - rewrite loop_condition_stopped by done.
    destruct (audio_queue s) as [|d q] eqn:Hq.
    + rewrite bool_decide_eq_true_2 by done. cbn [negb]. by rewrite Hq.
    + rewrite bool_decide_eq_false_2 by done. cbn [negb].
      destruct (worker_iter_facts model_transcribe now ok s) as (_ & -> & _).
      rewrite Hq. cbn. lia.
Qed.

Lemma run_stopped_queue (es : list event) :
  ∀ s : state,
    is_recording s = false →
    length (audio_queue (go es s))
    = (length (audio_queue s) - turns es)%nat.
Proof.
  induction es as [|e es IH]; intros s Hrec.
  - cbn. lia.
  - rewrite run_cons, IH by (by rewrite step_is_recording; destruct e).
    rewrite step_stopped_queue by done.
    destruct e as [d| |now ok]; cbn [turns]; lia.
Qed.

(** Once the session is stopped, whatever the capture thread and the
    controller still do, the queue is empty after as many turns of the
    worker as there were frames in it, and the worker has taken exactly
    those frames, in order. *)
Theorem run_drains_after_stop (es : list event) (s : state) :
  is_recording s = false →
  (length (audio_queue s) ≤ turns es)%nat →
  audio_queue (go es s) = []
  ∧ consumed (go es s) = consumed s ++ audio_queue s.
Proof.
  intros Hrec Hturns.
  assert (Hq : audio_queue (go es s) = []).
  { apply length_zero_iff_nil. rewrite run_stopped_queue by done. lia. }
  split; [done|].
  pose proof (run_consumed_queue es s) as Hfifo.
  by rewrite Hq, Hrec, accepted_stopped, !app_nil_r in Hfifo.
Qed.

End SessionFacts.

Section WindowFacts.

Variable model_transcribe : bytes → outcome string.

Let iter := worker_iter model_transcribe.
Let step1 := step model_transcribe.
Let go := run model_transcribe.

(** A buffer that has reached [buffer_size] passes the half-second test
    of [transcribe_audio_chunk]. *)
Lemma long_enough (b : bytes) :
  buffer_size ≤ len b → (2 * samples b <? sample_rate) = false.
Proof.
  rewrite buffer_size_value. intros H. apply Z.ltb_ge.
  unfold samples. change sample_rate with 16000.
  pose proof (Z.mul_div_le (len b) 2 ltac:(lia)) as H1.
  pose proof (Z.mod_pos_bound (len b) 2 ltac:(lia)) as H2.
  pose proof (Z.div_mod (len b) 2 ltac:(lia)) as H3. lia.
Qed.

(** A turn of the loop that finds a full buffer, in full. *)
Lemma worker_iter_dispatch (now : string) (ok : bool) (s : state) :
  let W := audio_buffer (take_frame s) in
  let s' := iter now ok s in
  buffer_size ≤ len W →
  windows s' = windows s ++ [W]
  ∧ asr_calls s' = asr_calls s ++ filter (λ w, len w `mod` 2 = 0) [W]
  ∧ (audio_buffer s' = last_bytes overlap W
     ∨ ok = false ∧ audio_buffer s' = W)
  ∧ ∃ line : option string,
      output_file s' = output_file s ++ option_list line
      ∧ ∀ l, line = Some l →
             ok = true ∧ len W `mod` 2 = 0
             ∧ ∃ text, text ≠ ""
                       ∧ l = "[" +:+ now +:+ "] " +:+ text +:+ nl.
Proof.
  intros W s' Hfull. subst s' iter. unfold worker_iter. fold W.
  assert (Hs1 : windows (take_frame s) = windows s
                ∧ asr_calls (take_frame s) = asr_calls s
                ∧ output_file (take_frame s) = output_file s).
  { unfold take_frame. by destruct (audio_queue s). }
  destruct Hs1 as (Hw & Ha & Ho).
  replace (buffer_size <=? len W) with true by (symmetry; by apply Z.leb_le).
  unfold transcribe_audio_chunk. rewrite (long_enough W Hfull).
  unfold filter, list_filter.
  destruct (decide (len W `mod` 2 = 0)) as [Heven|Hodd].
  - replace (len W `mod` 2 =? 0) with true by (symmetry; by apply Z.eqb_eq).
    cbn [negb].
    destruct (model_transcribe W) as [raw|e].
    + destruct (decide (strip raw = "")) as [Hempty|Htext].
      * cbn. rewrite Hw, Ha, Ho. split_and!; try done; [by left|].
        exists None. by rewrite app_nil_r.
      * destruct ok; cbn; rewrite Hw, Ha, Ho.
        -- split_and!; try done; [by left|].
           eexists (Some _). split; [done|].
           intros l [= <-]. split_and!; try done. by exists (strip raw).
        -- split_and!; try done; [by right|].
           exists None. by rewrite app_nil_r.
    + cbn. rewrite Hw, Ha, Ho. split_and!; try done; [by left|].
      exists None. by rewrite app_nil_r.
  - replace (len W `mod` 2 =? 0) with false
      by (symmetry; by apply Z.eqb_neq).
    cbn. rewrite Hw, Ha, Ho, app_nil_r. split_and!; try done; [by left|].
    exists None. by rewrite app_nil_r.
Qed.

(** What the turns of the worker did to a session: every window handed
    over had reached [buffer_size]; the engine was called on exactly the
    windows of even length, in order (the half-second test never rejects
    a window); and the transcript grew by lines of the form
    ["[time] text"] with a non-empty text, at most one for each call of
    the engine. *)
Theorem run_windows_and_calls (es : list event) :
  ∀ s : state,
    Forall (λ w, buffer_size ≤ len w) (windows s) →
    asr_calls s = filter (λ w, len w `mod` 2 = 0) (windows s) →
    let s' := go es s in
    Forall (λ w, buffer_size ≤ len w) (windows s')
    ∧ asr_calls s' = filter (λ w, len w `mod` 2 = 0) (windows s')
    ∧ ∃ new : list string,
        output_file s' = output_file s ++ new
        ∧ Forall (λ l, ∃ now text, text ≠ ""
                         ∧ l = "[" +:+ now +:+ "] " +:+ text +:+ nl) new
        ∧ (length new + length (asr_calls s) ≤ length (asr_calls s'))%nat.
Proof.
  induction es as [|e es IH]; intros s Hbig Hcalls; cbv zeta.
  { split_and!; try done. exists []. rewrite app_nil_r.
    split_and!; [done|constructor|done]. }
  change (go (e :: es) s) with (go es (step1 s e)).
  assert (Hstep :
    Forall (λ w, buffer_size ≤ len w) (windows (step1 s e))
    ∧ asr_calls (step1 s e)
      = filter (λ w, len w `mod` 2 = 0) (windows (step1 s e))
    ∧ ∃ new : list string,
        output_file (step1 s e) = output_file s ++ new
        ∧ Forall (λ l, ∃ now text, text ≠ ""
                         ∧ l = "[" +:+ now +:+ "] " +:+ text +:+ nl) new
        ∧ (length new + length (asr_calls s)
           ≤ length (asr_calls (step1 s e)))%nat).
  { assert (Hsame : ∀ s0, windows s0 = windows s → asr_calls s0 = asr_calls s
              → output_file s0 = output_file s →
              Forall (λ w, buffer_size ≤ len w) (windows s0)
              ∧ asr_calls s0 = filter (λ w, len w `mod` 2 = 0) (windows s0)
              ∧ ∃ new : list string,
                  output_file s0 = output_file s ++ new
                  ∧ Forall (λ l, ∃ now text, text ≠ ""
                              ∧ l = "[" +:+ now +:+ "] " +:+ text +:+ nl) new
                  ∧ (length new + length (asr_calls s)
                     ≤ length (asr_calls s0))%nat).
    { intros s0 Hw Ha Ho. rewrite Hw, Ha, Ho. split_and!; try done.
      exists []. rewrite app_nil_r. split_and!; [done|constructor|done]. }
    subst step1. destruct e as [d| |now ok]; cbn [step].
    - apply Hsame; unfold audio_callback; by destruct (is_recording s).
    - by apply Hsame.
    - destruct (loop_condition s); [|by apply Hsame].
      destruct (Z_lt_le_dec (len (audio_buffer (take_frame s))) buffer_size)
        as [Hsmall|Hfull].
      + destruct (worker_iter_facts model_transcribe now ok s)
          as (_ & _ & _ & Heq & _).
        rewrite (Heq Hsmall).
        apply Hsame; unfold take_frame; by destruct (audio_queue s).
      + destruct (worker_iter_dispatch now ok s Hfull)
          as (Hw & Ha & _ & line & Ho & Hline).
        subst iter. rewrite Hw, Ha, Ho, Hcalls, filter_app.
        split_and!; try done.
        * apply Forall_app. split; [done|]. by repeat constructor.
        * exists (option_list line). split; [done|]. split.
          -- destruct line as [l|]; [|constructor].
             destruct (Hline l eq_refl) as (_ & _ & text & Ht & ->).
             repeat constructor. by exists now, text.
          -- rewrite length_app. destruct line as [l|]; simpl; [|lia].
             destruct (Hline l eq_refl) as (_ & Heven & _).
             rewrite filter_cons_True by done. simpl. lia. }
  destruct Hstep as (Hbig1 & Hcalls1 & new1 & Ho1 & Hl1 & Hn1).
  destruct (IH (step1 s e) Hbig1 Hcalls1) as (Hbig2 & Hcalls2 & new2 & Ho2 & Hl2 & Hn2).
  split_and!; try done.
  exists (new1 ++ new2). rewrite Ho2, Ho1, <- app_assoc.
  split_and!; [done|by apply Forall_app|]. rewrite length_app. lia.
Qed.

End WindowFacts.

Lemma run_windows_and_calls_witness :
  let s' := run talking_model (capture_and_iterate 2) initial in
  Forall (λ w, buffer_size ≤ len w) (windows s')
  ∧ asr_calls s' = filter (λ w, len w `mod` 2 = 0) (windows s')
  ∧ ∃ new : list string,
      output_file s' = output_file initial ++ new
      ∧ Forall (λ l, ∃ now text, text ≠ ""
                       ∧ l = "[" +:+ now +:+ "] " +:+ text +:+ nl) new
      ∧ (length new + length (asr_calls initial)
         ≤ length (asr_calls s'))%nat.
Proof.
  apply (run_windows_and_calls talking_model (capture_and_iterate 2) initial).
  - constructor.
  - reflexivity.
Defined.

Lemma pairs_snoc {A} (R : A → A → Prop) (l : list A) (x : A) :
  (∀ i a b, l !! i = Some a → l !! S i = Some b → R a b) →
  (∀ a, last l = Some a → R a x) →
  ∀ i a b, (l ++ [x]) !! i = Some a → (l ++ [x]) !! S i = Some b → R a b.
Proof.
  intros Hold Hlast i a b Ha Hb.
  destruct (decide (S i < length l)%nat) as [Hlt|Hge].
  - rewrite lookup_app_l in Ha by lia. rewrite lookup_app_l in Hb by lia.
    by apply (Hold i).
  - pose proof (lookup_lt_Some _ _ _ Hb) as Hlen.
    rewrite length_app in Hlen. simpl in Hlen.
    assert (Hi : S i = length l) by lia.
    rewrite lookup_app_r in Hb by lia.
    replace (S i - length l)%nat with 0%nat in Hb by lia.
    simplify_eq/=. apply Hlast.
    rewrite lookup_app_l in Ha by lia.
    rewrite last_lookup. by replace (pred (length l)) with i by lia.
Qed.

Section WindowShape.

Variable model_transcribe : bytes → outcome string.

Let iter := worker_iter model_transcribe.
Let step1 := step model_transcribe.
Let go := run model_transcribe.

Lemma take_frame_shape (s : state) :
  (audio_queue s = []
   ∧ take_frame s = s)
  ∨ (∃ d q, audio_queue s = d :: q
            ∧ audio_buffer (take_frame s) = audio_buffer s ++ d
            ∧ audio_queue (take_frame s) = q
            ∧ windows (take_frame s) = windows s).
Proof.
  unfold take_frame. destruct (audio_queue s) as [|d q] eqn:Hq.
  - by left.
  - right. by exists d, q.
Qed.

(** The invariant behind the bound on the windows. *)
Let bounded (m : Z) (s : state) : Prop :=
  len (audio_buffer s) < buffer_size
  ∧ Forall (λ d, len d ≤ m) (audio_queue s)
  ∧ Forall (λ w, len w < buffer_size + m) (windows s).

Lemma step_bounded (m : Z) (s : state) (e : event) :
  match e with Iterate _ ok => ok = true | _ => True end →
  match e with Callback d => len d ≤ m | _ => True end →
  bounded m s → bounded m (step1 s e).
Proof.
  intros Hok Hm (Hbuf & Hq & Hw). subst step1 bounded.
  destruct e as [d| |now ok]; cbn [step].
  - unfold audio_callback. destruct (is_recording s); [|done].
    cbn. split_and!; try done. apply Forall_app. split; [done|].
    by repeat constructor.
  - done.
  - destruct (loop_condition s); [|done]. subst ok.
    destruct (worker_iter_facts model_transcribe now true s)
      as (_ & Hq' & _ & Hsmall & Hfull & _).
    assert (Hq1 : Forall (λ d, len d ≤ m) (tail (audio_queue s))).
    { destruct (audio_queue s); [done|]. by apply Forall_cons in Hq as [_ ?]. }
    assert (HW : len (audio_buffer (take_frame s)) < buffer_size + m
                 ∨ len (audio_buffer (take_frame s)) < buffer_size).
    { destruct (take_frame_shape s) as [[_ ->]|(d & q & Hqs & -> & _)];
        [by right|].
      left. rewrite len_app. rewrite Hqs in Hq.
      apply Forall_cons in Hq as [Hd _]. lia. }
    destruct (Z_lt_le_dec (len (audio_buffer (take_frame s))) buffer_size)
      as [Hlt|Hge].
    + rewrite (Hsmall Hlt). split_and!; [done| |].
      * destruct (take_frame_shape s) as [[_ ->]|(d & q & Hqs & _ & -> & _)];
          [done|]. rewrite Hqs in Hq. by apply Forall_cons in Hq as [_ ?].
      * by destruct (take_frame_shape s) as [[_ ->]|(d & q & _ & _ & _ & ->)].
    + destruct (Hfull Hge) as [Hwin Htrim]. rewrite Hq', Hwin, (Htrim eq_refl).
      split_and!; [|done|].
      * rewrite len_last_bytes; [by rewrite overlap_value, buffer_size_value|].
        rewrite overlap_value. rewrite buffer_size_value in Hge. lia.
      * apply Forall_app. split; [done|]. repeat constructor.
        destruct HW as [?|?]; [done|lia].
Qed.

(** When the appends to the transcript succeed and the capture callback
    delivers at most [m] bytes at a time, the worker's buffer is below
    [buffer_size] between turns, and no window handed over is longer than
    [buffer_size + m] bytes: the work of one engine call is bounded. *)
Theorem run_window_length (m : Z) (es : list event) :
  appends_succeed es →
  frames_at_most m es →
  let s := go es initial in
  len (audio_buffer s) < buffer_size
  ∧ Forall (λ w, len w < buffer_size + m) (windows s).
Proof.
  intros Hok Hm. cbv zeta.
  assert (H : ∀ s, bounded m s → bounded m (go es s)).
  { revert Hok Hm. induction es as [|e es IH]; intros Hok Hm s Hs; [done|].
    apply Forall_cons in Hok as [Hok1 Hok]. apply Forall_cons in Hm as [Hm1 Hm].
    change (go (e :: es) s) with (go es (step1 s e)).
    apply IH; [done..|]. by apply step_bounded. }
  destruct (H initial) as (Hbuf & _ & Hw); [|done].
  subst bounded. cbn. rewrite buffer_size_value.
  split_and!; [done|constructor..].
Qed.

(** The invariant behind the overlap of consecutive windows. *)
Let chained (s : state) : Prop :=
  (∀ i w1 w2, windows s !! i = Some w1 → windows s !! S i = Some w2 →
              take (Z.to_nat overlap) w2 = last_bytes overlap w1)
  ∧ (∀ w, last (windows s) = Some w →
          ∃ rest, audio_buffer s = last_bytes overlap w ++ rest)
  ∧ Forall (λ w, buffer_size ≤ len w) (windows s).

Lemma length_last_bytes (w : bytes) :
  buffer_size ≤ len w → length (last_bytes overlap w) = Z.to_nat overlap.
Proof.
  intros H.
  assert (Hl : len (last_bytes overlap w) = overlap).
  { apply len_last_bytes.
    rewrite overlap_value. rewrite buffer_size_value in H. lia. }
  unfold len in Hl. lia.
Qed.

Lemma step_chained (s : state) (e : event) :
  match e with Iterate _ ok => ok = true | _ => True end →
  chained s → chained (step1 s e).
Proof.
  intros Hok (Hpairs & Hlast & Hbig). subst step1 chained.
  destruct e as [d| |now ok]; cbn [step].
  - unfold audio_callback. by destruct (is_recording s).
  - done.
  - destruct (loop_condition s); [|done]. subst ok.
    destruct (worker_iter_facts model_transcribe now true s)
      as (_ & _ & _ & Hsmall & Hfull & _).
    assert (Hlast1 : ∀ w, last (windows s) = Some w →
              ∃ rest, audio_buffer (take_frame s)
                      = last_bytes overlap w ++ rest).
    { intros w Hw. destruct (Hlast w Hw) as [rest Hrest].
      destruct (take_frame_shape s) as [[_ ->]|(d & q & _ & -> & _)].
      - by exists rest.
      - exists (rest ++ d). by rewrite Hrest, <- app_assoc. }
    assert (Hwin1 : windows (take_frame s) = windows s).
    { by destruct (take_frame_shape s) as [[_ ->]|(d & q & _ & _ & _ & ->)]. }
    destruct (Z_lt_le_dec (len (audio_buffer (take_frame s))) buffer_size)
      as [Hlt|Hge].
    + rewrite (Hsmall Hlt), Hwin1. done.
    + destruct (Hfull Hge) as [Hwin Htrim]. rewrite Hwin, (Htrim eq_refl).
      split_and!.
      * apply pairs_snoc; [done|]. intros w Hw.
        destruct (Hlast1 w Hw) as [rest ->].
        apply take_app_length'. symmetry. apply length_last_bytes.
        rewrite Forall_forall in Hbig. apply Hbig.
        by apply last_Some_elem_of.
      * intros w. rewrite last_snoc. intros [= <-]. exists [].
        by rewrite app_nil_r.
      * apply Forall_app. split; [done|]. by repeat constructor.
Qed.

(** When the appends to the transcript succeed, every window after the
    first begins with the last [overlap] bytes, a quarter of
    [buffer_size], of the window before it. *)
Theorem run_windows_overlap (es : list event) (i : nat) (w1 w2 : bytes) :
  appends_succeed es →
  windows (go es initial) !! i = Some w1 →
  windows (go es initial) !! S i = Some w2 →
  take (Z.to_nat overlap) w2 = last_bytes overlap w1
  ∧ len (last_bytes overlap w1) = overlap
  ∧ 4 * overlap = buffer_size.
Proof.
  intros Hok H1 H2.
  assert (H : ∀ s, chained s → chained (go es s)).
  { clear H1 H2. revert Hok.
    induction es as [|e es IH]; intros Hok s Hs; [done|].
    apply Forall_cons in Hok as [Hok1 Hok].
    change (go (e :: es) s) with (go es (step1 s e)).
    apply IH; [done|]. by apply step_chained. }
  destruct (H initial) as (Hpairs & _ & Hbig).
  { subst chained. cbn. split_and!; [done|done|constructor]. }
  split_and!; [by apply (Hpairs i)| |done].
  apply len_last_bytes. rewrite Forall_forall in Hbig.
  assert (Hw : buffer_size ≤ len w1).
  { apply Hbig. by eapply list_elem_of_lookup_2. }
  rewrite overlap_value. rewrite buffer_size_value in Hw. lia.
Qed.

End WindowShape.

Lemma capture_and_iterate_succ (n : nat) :
  capture_and_iterate (S n)
  = Callback callback_frame :: Iterate "12:00:00" true
      :: capture_and_iterate n.
Proof. done. Qed.

Lemma capture_and_iterate_appends (n : nat) :
  appends_succeed (capture_and_iterate n).
Proof.
  induction n as [|n IH]; [constructor|].
  rewrite capture_and_iterate_succ. by repeat constructor.
Qed.

Lemma capture_and_iterate_frames (n : nat) :
  frames_at_most 2048 (capture_and_iterate n).
Proof.
  induction n as [|n IH]; [constructor|].
  rewrite capture_and_iterate_succ.
  constructor; [by vm_compute|]. by constructor.
Qed.

Lemma run_window_length_witness :
  let s := run silent_model (capture_and_iterate 47) initial in
  len (audio_buffer s) < buffer_size
  ∧ Forall (λ w, len w < buffer_size + 2048) (windows s).
Proof.
  apply (run_window_length silent_model 2048 (capture_and_iterate 47)).
  - apply capture_and_iterate_appends.
  - apply capture_and_iterate_frames.
Defined.

Lemma run_windows_overlap_witness :
  let s := run silent_model two_long_frames initial in
  ∃ w1 w2 : bytes,
    (windows s !! 0%nat = Some w1 ∧ windows s !! 1%nat = Some w2)
    ∧ take (Z.to_nat overlap) w2 = last_bytes overlap w1
    ∧ len (last_bytes overlap w1) = overlap
    ∧ 4 * overlap = buffer_size.
Proof.
  intros s.
  destruct (lookup_lt_is_Some_2 (windows s) 0) as [w1 H1].
  { apply Nat.ltb_lt. vm_compute. reflexivity. }
  destruct (lookup_lt_is_Some_2 (windows s) 1) as [w2 H2].
  { apply Nat.ltb_lt. vm_compute. reflexivity. }
  exists w1, w2. split; [by split|].
  apply (run_windows_overlap silent_model two_long_frames 0 w1 w2);
    [by repeat constructor | exact H1 | exact H2].
Defined.

Section ChunkFacts.

Variable model_transcribe : bytes → outcome string.

(** [transcribe_audio_chunk] returns a text only when the buffer has an
    even length of at least half a second, the engine returned, and the
    stripped text is not empty: the text returned is that stripped text.
    A buffer of odd length or shorter than half a second gives [None]
    without the engine being called.  An exception of the engine gives
    [None] and one entry in the error log. *)
Theorem transcribe_audio_chunk_contract (audio_data : bytes) (s : state) :
  let r := transcribe_audio_chunk model_transcribe audio_data s in
  (∀ text, r.1 = Some text →
     text ≠ ""
     ∧ len audio_data `mod` 2 = 0
     ∧ sample_rate ≤ 2 * samples audio_data
     ∧ ∃ raw, model_transcribe audio_data = Returned raw ∧ text = strip raw)
  ∧ (len audio_data `mod` 2 ≠ 0 ∨ 2 * samples audio_data < sample_rate →
     r.1 = None ∧ asr_calls r.2 = asr_calls s)
  ∧ (∀ e, len audio_data `mod` 2 = 0 →
          sample_rate ≤ 2 * samples audio_data →
          model_transcribe audio_data = Raised e →
          r.1 = None
          ∧ asr_calls r.2 = asr_calls s ++ [audio_data]
          ∧ error_log r.2 = error_log s ++ [TranscribeError]).
Proof.
  cbv zeta. unfold transcribe_audio_chunk.
  destruct (len audio_data `mod` 2 =? 0) eqn:Heven; cbn [negb].
  - apply Z.eqb_eq in Heven.
    destruct (2 * samples audio_data <? sample_rate) eqn:Hshort.
    + apply Z.ltb_lt in Hshort. cbn. split_and!; try done.
      intros e _ Hlong. lia.
    + apply Z.ltb_ge in Hshort.
      destruct (model_transcribe audio_data) as [raw|e] eqn:Hm.
      * cbn. split_and!.
        -- intros text Ht. case_decide; [done|]. simplify_eq.
           split_and!; try done. by exists raw.
        -- intros [Hodd|Hlt]; [done|lia].
        -- done.
      * cbn. split_and!; [done| |done].
        intros [Hodd|Hlt]; [done|lia].
  - apply Z.eqb_neq in Heven. cbn. split_and!; try done.
Qed.

End ChunkFacts.

Lemma worker_never_returns_while_recording_witness :
  transcription_worker silent_model 100 (λ _, ("12:00:00", true)) 0 initial
  = None.
Proof.
  apply (worker_never_returns_while_recording silent_model 100
           (λ _, ("12:00:00", true)) 0 initial).
  reflexivity.
Defined.

Lemma run_drains_after_stop_witness :
  let es := replicate 16 (Iterate "12:00:00" true) in
  let s := stopped_with_one_second in
  audio_queue (run talking_model es s) = []
  ∧ consumed (run talking_model es s) = consumed s ++ audio_queue s.
Proof.
  intros es s.
  apply (run_drains_after_stop talking_model es s).
  - vm_compute. reflexivity.
  - apply Nat.leb_le. vm_compute. reflexivity.
Defined.

(** ** Stripping *)

Lemma lstrip_suffix_bounded (n : nat) :
  ∀ s : string, (String.length s ≤ n)%nat → ∃ pre, s = pre +:+ lstrip s.
Proof.
  induction n as [|n IH]; intros s Hlen.
  { destruct s; [by exists ""|simpl in Hlen; lia]. }
  destruct s as [|a r1]; [by exists ""|]. simpl in Hlen.
  change (lstrip (String a r1)) with
    (if is_space1 a then lstrip r1 else
       match r1 with
       | String b r2 =>
           if is_space2 a b then lstrip r2 else
             match r2 with
             | String c r3 =>
                 if is_space3 a b c then lstrip r3 else String a r1
             | EmptyString => String a r1
             end
       | EmptyString => String a r1
       end).
  destruct (is_space1 a).
  { destruct (IH r1) as [pre Hpre]; [lia|].
    exists (String a pre). by rewrite Hpre at 1. }
  destruct r1 as [|b r2]; [by exists ""|]. simpl in Hlen.
  destruct (is_space2 a b).
  { destruct (IH r2) as [pre Hpre]; [lia|].
    exists (String a (String b pre)). by rewrite Hpre at 1. }
  destruct r2 as [|c r3]; [by exists ""|]. simpl in Hlen.
  destruct (is_space3 a b c); [|by exists ""].
  destruct (IH r3) as [pre Hpre]; [lia|].
  exists (String a (String b (String c pre))). by rewrite Hpre at 1.
Qed.

Lemma lstrip_rev_suffix_bounded (n : nat) :
  ∀ s : string, (String.length s ≤ n)%nat → ∃ pre, s = pre +:+ lstrip_rev s.
Proof.
  induction n as [|n IH]; intros s Hlen.
  { destruct s; [by exists ""|simpl in Hlen; lia]. }
  destruct s as [|a r1]; [by exists ""|]. simpl in Hlen.
  change (lstrip_rev (String a r1)) with
    (if is_space1 a then lstrip_rev r1 else
       match r1 with
       | String b r2 =>
           if is_space2 b a then lstrip_rev r2 else
             match r2 with
             | String c r3 =>
                 if is_space3 c b a then lstrip_rev r3 else String a r1
             | EmptyString => String a r1
             end
       | EmptyString => String a r1
       end).
  destruct (is_space1 a).
  { destruct (IH r1) as [pre Hpre]; [lia|].
    exists (String a pre). by rewrite Hpre at 1. }
  destruct r1 as [|b r2]; [by exists ""|]. simpl in Hlen.
  destruct (is_space2 b a).
  { destruct (IH r2) as [pre Hpre]; [lia|].
    exists (String a (String b pre)). by rewrite Hpre at 1. }
  destruct r2 as [|c r3]; [by exists ""|]. simpl in Hlen.
  destruct (is_space3 c b a); [|by exists ""].
  destruct (IH r3) as [pre Hpre]; [lia|].
  exists (String a (String b (String c pre))). by rewrite Hpre at 1.
Qed.

Lemma rev_app_spec (s : string) :
  ∀ t : string, String.rev_app s t = String.rev_app s "" +:+ t.
Proof.
  induction s as [|a s IH]; intros t; [done|].
  cbn [String.rev_app]. rewrite (IH (String a t)), (IH (String a "")).
  by rewrite str_app_assoc.
Qed.

Lemma str_rev_app (a b : string) :
  String.rev (a +:+ b) = String.rev b +:+ String.rev a.
Proof.
  induction a as [|x a IH]; [by rewrite str_app_nil_r|].
  change (String.rev (String x a +:+ b))
    with (String.rev_app (a +:+ b) (String x "")).
  change (String.rev (String x a)) with (String.rev_app a (String x "")).
  rewrite (rev_app_spec (a +:+ b)), (rev_app_spec a).
  fold (String.rev (a +:+ b)) (String.rev a).
  by rewrite IH, str_app_assoc.
Qed.

Lemma str_rev_involutive (s : string) : String.rev (String.rev s) = s.
Proof.
  induction s as [|x s IH]; [done|].
  change (String.rev (String x s)) with (String.rev_app s (String x "")).
  rewrite rev_app_spec. fold (String.rev s).
  by rewrite str_rev_app, IH.
Qed.

(** [strip] takes characters away at the two ends only. *)
Lemma strip_is_infix (s : string) :
  ∃ pre post : string, s = pre +:+ strip s +:+ post.
Proof.
  destruct (lstrip_suffix_bounded (String.length s) s) as [pre Hpre]; [done|].
  set (t := lstrip s) in *.
  destruct (lstrip_rev_suffix_bounded (String.length (String.rev t))
              (String.rev t)) as [q Hq]; [done|].
  exists pre, (String.rev q). unfold strip, rstrip. fold t.
  rewrite <- str_rev_app, <- Hq, str_rev_involutive. exact Hpre.
Qed.

(** The full text a report shows is a contiguous part of the text of the
    Whisper result: the body of [save_transcript] writes [ft] followed by
    an empty line, where [result['text']] is [ft] with something, white
    space only being taken away, before and after it. *)
Theorem full_text_is_part_of_result (model_size now_text : string)
    (whole_seconds : float → outcome Z) (result : whisper_result)
    (mp4_path : string) (include_speakers include_timestamps : bool) :
  ∃ pre ft post : string,
    result_text result = pre +:+ ft +:+ post
    ∧ Write (ft +:+ nl +:+ nl)
      ∈ (report_body model_size now_text whole_seconds result mp4_path
           include_speakers include_timestamps).1.
Proof.
  destruct (strip_is_infix (result_text result)) as (pre & post & Hs).
  exists pre, (strip (result_text result)), post. split; [exact Hs|].
  rewrite report_body_parts. cbv zeta. cbn [fst].
  apply elem_of_app. right. apply elem_of_app. left.
  do 2 apply list_elem_of_further. apply list_elem_of_here.
Qed.
